(** * BioTech lead generation: the pipeline of [biotech_main.py]

    A shallow embedding of the lead pipeline (identification, enrichment,
    ranking) together with the properties its specification states.

    Python strings are modelled as [string], one [ascii] per character: a
    character is a code point below 256, and [str.lower], [str.strip] and
    [str.split] act on these code points as Python does (the capitals
    and the whitespace of Latin-1 included); Python integers as [Z]; values of unknown shape returned by [json.loads] as
    [pyval]; an exception that leaves a function as the [Raise] branch of
    [result] or the [Exn] branch of [outcome]. The generative model, the
    web search, the literature database and [json.loads] are external: they
    are the fields of an environment [env] over which every theorem is
    universally quantified. *)

From Stdlib Require Import List String Ascii ZArith Lia Bool Arith PeanoNat.
From Stdlib Require Import Sorting.Sorted Permutation DecimalString.
Import ListNotations.

Set Warnings "-register-all".

Local Open Scope string_scope.
Local Open Scope list_scope.

(** String concatenation, kept apart from the [++] of lists. *)
Infix "+++" := String.append (right associativity, at level 60).

(* ================================================================== *)
(** ** Python string primitives used by the program *)
(* ================================================================== *)

Module PyStr.

Definition code (c : ascii) : nat := nat_of_ascii c.

Definition between (lo hi : nat) (c : ascii) : bool :=
  Nat.leb lo (code c) && Nat.leb (code c) hi.

(** [[A-Z]] and [[a-z]] of the regular expressions, and [\d], which below
    256 matches the digits 0 to 9 only. *)
Definition is_upper : ascii -> bool := between 65 90.
Definition is_lower : ascii -> bool := between 97 122.
Definition is_digit : ascii -> bool := between 48 57.

(** [c.isspace()]: the characters removed by [str.strip()] and
    separating [str.split()]. Below 256 these are the control characters
    9 to 13 and 28 to 31, the space, the next line character U+0085 and
    the no-break space U+00A0. *)
Definition is_space (c : ascii) : bool :=
  between 9 13 c || between 28 32 c
  || Nat.eqb (code c) 133 || Nat.eqb (code c) 160.

(** The characters [str.lower()] changes: below 256 these are [A] to [Z]
    and the capitals U+00C0 to U+00DE but for the sign U+00D7; each has
    its small letter 32 places further. *)
Definition is_capital (c : ascii) : bool :=
  between 65 90 c || between 192 214 c || between 216 222 c.

Definition lower_char (c : ascii) : ascii :=
  if is_capital c then ascii_of_nat (code c + 32) else c.

(** [s.lower()] *)
Fixpoint lower (s : string) : string :=
  match s with
  | EmptyString => EmptyString
  | String c s' => String (lower_char c) (lower s')
  end.

(** [s.startswith(p)] *)
Fixpoint startswith (p s : string) : bool :=
  match p, s with
  | EmptyString, _ => true
  | String _ _, EmptyString => false
  | String a p', String b s' => Ascii.eqb a b && startswith p' s'
  end.

(** [sub in s] *)
Fixpoint contains (sub s : string) : bool :=
  match s with
  | EmptyString => startswith sub EmptyString
  | String _ s' => startswith sub s || contains sub s'
  end.

(** [s.replace(' ', '')] *)
Fixpoint remove_spaces (s : string) : string :=
  match s with
  | EmptyString => EmptyString
  | String c s' =>
      if Ascii.eqb c " " then remove_spaces s' else String c (remove_spaces s')
  end.

(** [s.split(sep)] for a one-character separator: never the empty list. *)
Fixpoint split_on (sep : ascii) (s : string) : list string :=
  match s with
  | EmptyString => [EmptyString]
  | String c s' =>
      if Ascii.eqb c sep then EmptyString :: split_on sep s'
      else match split_on sep s' with
           | [] => [String c EmptyString]
           | h :: t => String c h :: t
           end
  end.

Fixpoint lstrip (s : string) : string :=
  match s with
  | EmptyString => EmptyString
  | String c s' => if is_space c then lstrip s' else s
  end.

Fixpoint rstrip (s : string) : string :=
  match s with
  | EmptyString => EmptyString
  | String c s' =>
      match rstrip s' with
      | EmptyString => if is_space c then EmptyString else String c EmptyString
      | r => String c r
      end
  end.

(** [s.strip()] *)
Definition strip (s : string) : string := rstrip (lstrip s).

(** [s.split()]: the maximal runs of non-whitespace characters. *)
Fixpoint split_ws (s : string) : list string :=
  match s with
  | EmptyString => []
  | String c s' =>
      if is_space c then split_ws s'
      else match s' with
           | EmptyString => [String c EmptyString]
           | String c' _ =>
               if is_space c' then String c EmptyString :: split_ws s'
               else match split_ws s' with
                    | [] => [String c EmptyString]
                    | h :: t => String c h :: t
                    end
           end
  end.

(** [sep.join(l)] *)
Fixpoint join (sep : string) (l : list string) : string :=
  match l with
  | [] => EmptyString
  | [x] => x
  | x :: rest => x +++ sep +++ join sep rest
  end.

(** [s[7:-3]] *)
Definition slice_7_m3 (s : string) : string :=
  substring 7 (String.length s - 10) s.

(** The longest prefix of [s] whose characters satisfy [p], and the rest. *)
Fixpoint span (p : ascii -> bool) (s : string) : string * string :=
  match s with
  | EmptyString => (EmptyString, EmptyString)
  | String c s' =>
      if p c then let (a, b) := span p s' in (String c a, b)
      else (EmptyString, s)
  end.

(** Every character of [s] satisfies [p]. *)
Fixpoint all_chars (p : ascii -> bool) (s : string) : bool :=
  match s with
  | EmptyString => true
  | String c s' => p c && all_chars p s'
  end.

(** [s] does not begin with a character that satisfies [p]. *)
Definition stops (p : ascii -> bool) (s : string) : bool :=
  match s with
  | EmptyString => true
  | String c _ => negb (p c)
  end.

(** [re.search(r'\d+', s)]: the leftmost maximal run of digits. *)
Fixpoint search_digits (s : string) : option string :=
  match s with
  | EmptyString => None
  | String c s' =>
      if is_digit c then Some (fst (span is_digit s)) else search_digits s'
  end.

Definition digit_val (c : ascii) : Z := Z.of_nat (code c - 48).

Fixpoint int_acc (acc : Z) (s : string) : Z :=
  match s with
  | EmptyString => acc
  | String c s' => int_acc (10 * acc + digit_val c) s'
  end.

(** The decimal value of a run of digits. *)
Definition int_of_digits (ds : string) : Z := int_acc 0 ds.

(** The greatest number of digits [int] converts
    ([sys.get_int_max_str_digits()], 4300 unless it is changed, which the
    program does not do). *)
Definition int_max_str_digits : nat := 4300.

(** [str(n)] for a natural number. *)
Definition decimal_of_nat (n : nat) : string :=
  NilZero.string_of_uint (Nat.to_uint n).

(** [int(ds)] for a run of decimal digits: its value, or the text of the
    [ValueError] that [int] raises for a run longer than the limit. *)
Definition py_int (ds : string) : string + Z :=
  if Nat.leb (String.length ds) int_max_str_digits then inr (int_of_digits ds)
  else inl ("Exceeds the limit (" +++ decimal_of_nat int_max_str_digits
            +++ " digits) for integer string conversion: value has "
            +++ decimal_of_nat (String.length ds)
            +++ " digits; use sys.set_int_max_str_digits() to increase the limit").

(** A match of [[A-Z][a-z]+] at the head of [s]: the matched text and what
    follows it. The run of lower-case letters is taken whole: the pattern
    continues with a character that is not lower-case, so no shorter run
    can succeed where the longest fails. *)
Definition match_word (s : string) : option (string * string) :=
  match s with
  | String c s' =>
      if is_upper c then
        match span is_lower s' with
        | (EmptyString, _) => None
        | (w, rest) => Some (String c w, rest)
        end
      else None
  | EmptyString => None
  end.

(** A match of [[A-Z][a-z]+ [A-Z][a-z]+] at the head of [s]. *)
Definition match_name (s : string) : option (string * string) :=
  match match_word s with
  | Some (w1, String sp s1) =>
      if Ascii.eqb sp " " then
        match match_word s1 with
        | Some (w2, rest) => Some (w1 +++ " " +++ w2, rest)
        | None => None
        end
      else None
  | _ => None
  end.

(** [re.findall(r'[A-Z][a-z]+ [A-Z][a-z]+', s)]: leftmost matches, each
    search resuming where the previous match ended. A match consumes at
    least one character, so [length s] steps of fuel reach the end. *)
Fixpoint findall_names_fuel (fuel : nat) (s : string) : list string :=
  match fuel with
  | O => []
  | S f =>
      match s with
      | EmptyString => []
      | String _ s' =>
          match match_name s with
          | Some (m, rest) => m :: findall_names_fuel f rest
          | None => findall_names_fuel f s'
          end
      end
  end.

Definition findall_names (s : string) : list string :=
  findall_names_fuel (String.length s) s.

(** The double-quote character, as a one-character string. *)
Definition dq : string := String (ascii_of_nat 34) EmptyString.

(** The line feed, as a one-character string. *)
Definition nl : string := String (ascii_of_nat 10) EmptyString.

End PyStr.

Import PyStr.

(* ================================================================== *)
(** ** Values, exceptions and the external world *)
(* ================================================================== *)

(** A Python value as [json.loads] can return it. A float is kept only up
    to what the program observes of it, whether it is non-zero. *)
Inductive pyval : Type :=
| VNone
| VBool (b : bool)
| VInt (z : Z)
| VFloat (nonzero : bool)
| VStr (s : string)
| VList (l : list pyval)
| VDict (kvs : list (string * pyval)).

(** [bool(v)], the test behind [if v], [not v] and [v or w]. *)
Definition truthy (v : pyval) : bool :=
  match v with
  | VNone => false
  | VBool b => b
  | VInt z => negb (Z.eqb z 0)
  | VFloat nz => nz
  | VStr s => negb (String.eqb s EmptyString)
  | VList l => match l with [] => false | _ => true end
  | VDict kvs => match kvs with [] => false | _ => true end
  end.

(** [type(v).__name__] *)
Definition type_name (v : pyval) : string :=
  match v with
  | VNone => "NoneType"
  | VBool _ => "bool"
  | VInt _ => "int"
  | VFloat _ => "float"
  | VStr _ => "str"
  | VList _ => "list"
  | VDict _ => "dict"
  end.

Fixpoint assoc_get (k : string) (kvs : list (string * pyval)) : pyval :=
  match kvs with
  | [] => VNone
  | (k', v) :: rest => if String.eqb k k' then v else assoc_get k rest
  end.

Fixpoint chars (s : string) : list pyval :=
  match s with
  | EmptyString => []
  | String c s' => VStr (String c EmptyString) :: chars s'
  end.

Inductive exn : Type :=
| IndexError
| KeyError
| AttributeError (msg : string)
| TypeError (msg : string)
| ExternalError.

(** The text [str(e)] of an [AttributeError]. *)
Definition no_attribute (v : pyval) (attr : string) : string :=
  "'" +++ type_name v +++ "' object has no attribute '" +++ attr +++ "'".

Definition not_iterable (v : pyval) : string :=
  "'" +++ type_name v +++ "' object is not iterable".

(** A computation that reads no shared state: a value or an exception. *)
Inductive result (A : Type) : Type :=
| Ret (a : A)
| Raise (e : exn).
Arguments Ret {A} a.
Arguments Raise {A} e.

(** [data.get(key)]: only a dict has the method. *)
Definition py_get (data : pyval) (key : string) : result pyval :=
  match data with
  | VDict kvs => Ret (assoc_get key kvs)
  | _ => Raise (AttributeError (no_attribute data "get"))
  end.

(** The items a [for] loop over [v] visits. *)
Definition py_iter (v : pyval) : result (list pyval) :=
  match v with
  | VList l => Ret l
  | VStr s => Ret (chars s)
  | VDict kvs => Ret (map (fun kv => VStr (fst kv)) kvs)
  | _ => Raise (TypeError (not_iterable v))
  end.

(** What a call of [MODEL.generate_content(prompt)] followed by
    [response.text] does: raise, with [str(e)], or give the text. *)
Inductive llm_reply : Type :=
| Raises (msg : string)
| Replies (text : string).

(** One record of [records['PubmedArticle']], as far as the program reads
    it; [None] is a missing key. *)
Record author_rec : Type := {
  LastName : option string;
  ForeName : option string;
  AffiliationInfo : option (list (option string))
}.

Record article : Type := {
  ArticleTitle : string;
  AuthorList : option (list author_rec)
}.

(** The three places where the model is called. *)
Inductive call_site : Type := NameExtraction | Enrichment | Scoring.

Inductive event : Type :=
| LlmCall (site : call_site) (prompt : string)
| QuotaSet (site : call_site).

(** The external collaborators. [generate_content n prompt] is the reply
    to a call made when [n] events have been logged, so that two calls
    with one prompt may differ. [None] from a source is an exception of
    the client library; [inl msg] from [json_loads] is an exception whose
    text is [msg]. [set_rank] orders the elements of a [set] when it is
    turned into a list, an order Python leaves unspecified. *)
Record env : Type := {
  GEMINI_API_KEY : bool;
  EMAIL : bool;
  MODEL : bool;
  generate_content : nat -> string -> llm_reply;
  json_loads : string -> string + pyval;
  ddgs_text : string -> nat -> option (list string);
  esearch : string -> nat -> option (list string);
  efetch : string -> option (list article);
  py_str : pyval -> string;
  set_rank : string -> nat
}.

(** The text an f-string puts for [{v}]. *)
Definition fmt (E : env) (v : pyval) : string :=
  match v with
  | VStr s => s
  | _ => py_str E v
  end.

(* ================================================================== *)
(** ** Shared state and the monad of the pipeline *)
(* ================================================================== *)

(** The global [quota_exceeded] and, for the sake of the trace
    properties, the log of what happened, most recent event first. *)
Record state : Type := {
  quota_exceeded : bool;
  trace : list event
}.

Definition initial : state := {| quota_exceeded := false; trace := [] |}.

(** The events of a run in the order in which they happened. *)
Definition history (s : state) : list event := rev (trace s).

Inductive outcome (A : Type) : Type :=
| Ok (a : A) (s : state)
| Exn (e : exn) (s : state).
Arguments Ok {A} a s.
Arguments Exn {A} e s.

Definition final {A} (o : outcome A) : state :=
  match o with
  | Ok _ s => s
  | Exn _ s => s
  end.

Definition M (A : Type) : Type := state -> outcome A.

Definition ret {A} (a : A) : M A := fun s => Ok a s.

Definition raise {A} (e : exn) : M A := fun s => Exn e s.

Definition bind {A B} (m : M A) (k : A -> M B) : M B :=
  fun s =>
    match m s with
    | Ok a s' => k a s'
    | Exn e s' => Exn e s'
    end.

Definition lift {A} (r : result A) : M A :=
  match r with
  | Ret a => ret a
  | Raise e => raise e
  end.

Notation "x <- m ;; k" := (bind m (fun x => k))
  (at level 61, m at next level, right associativity).
Notation "m ;;; k" := (bind m (fun _ => k))
  (at level 61, right associativity).

Definition get_quota : M bool := fun s => Ok (quota_exceeded s) s.

Definition log (e : event) : M unit :=
  fun s => Ok tt {| quota_exceeded := quota_exceeded s; trace := e :: trace s |}.

(** [quota_exceeded = True] *)
Definition set_quota (site : call_site) : M unit :=
  fun s => Ok tt {| quota_exceeded := true; trace := QuotaSet site :: trace s |}.

(** [MODEL.generate_content(prompt)] and [response.text]. *)
Definition call_model (E : env) (site : call_site) (prompt : string)
  : M llm_reply :=
  fun s =>
    Ok (generate_content E (List.length (trace s)) prompt)
       {| quota_exceeded := quota_exceeded s;
          trace := LlmCall site prompt :: trace s |}.

(** The body every [except Exception as e] of the program shares. *)
Definition handle_llm_error (site : call_site) (msg : string) : M unit :=
  if contains "429" msg || contains "quota" (lower msg)
  then set_quota site
  else ret tt.

(** [ddgs.text(query, max_results=n)] and the [r['body']] of its results. *)
Definition search_snippets (E : env) (query : string) (n : nat)
  : M (list string) :=
  match ddgs_text E query n with
  | Some bodies => ret bodies
  | None => raise ExternalError
  end.

(** [text = response.text.strip()] and the removal of a markdown fence. *)
Definition unfence (text : string) : string :=
  let text := strip text in
  if startswith "```json" text then strip (slice_7_m3 text) else text.

(* ================================================================== *)
(** ** Sorting as [list.sort] does it *)
(* ================================================================== *)

Section StableSort.
Context {A : Type}.
(** [before x y]: [x] may stand in front of [y]. *)
Variable before : A -> A -> bool.

Fixpoint insert_by (x : A) (l : list A) : list A :=
  match l with
  | [] => [x]
  | y :: l' => if before x y then x :: l else y :: insert_by x l'
  end.

(** Each element is put in front of the sorted rest of the list, and
    passes only the elements it may not stand in front of: elements that
    compare equal keep the order they had. *)
Fixpoint sort_by (l : list A) : list A :=
  match l with
  | [] => []
  | x :: l' => insert_by x (sort_by l')
  end.
End StableSort.

(** Descending order of a key, as [reverse=True] asks for: [x] may stand
    in front of [y] when its key is not smaller. *)
Definition desc_by {A : Type} (key : A -> Z) (x y : A) : bool :=
  Z.leb (key y) (key x).

(** [list(set(names))]: the distinct names, in the order of the set. *)
Definition list_of_set (E : env) (names : list string) : list string :=
  sort_by (fun x y => Nat.leb (set_rank E x) (set_rank E y))
          (nodup string_dec names).

(* ================================================================== *)
(** ** The program *)
(* ================================================================== *)

(** A multi-line f-string of the source: a line feed, each line behind
    the indentation of the block, and the indentation of the closing
    quotes. *)
Definition ind : string := "        ".

Definition block (lines : list string) : string :=
  nl +++ String.concat EmptyString (map (fun l => ind +++ l +++ nl) lines) +++ ind.

(** *** [search_pubmed] *)

Definition search_pubmed (E : env) (keywords : list string) (max_results : nat)
  : result (list string) :=
  let query := "(" +++ join " OR " keywords +++ ") AND (2023[DP] : 2025[DP])" in
  match esearch E query max_results with
  | Some ids => Ret ids
  | None => Raise ExternalError
  end.

(** *** [fetch_paper_details] *)

Record author : Type := {
  au_name : string;
  affiliation : string;
  au_location : string
}.

Record paper : Type := {
  pmid : string;
  paper_title : string;
  authors : list author
}.

(** [parts[-2]] and [parts[-1]] when [len(parts) > 1]. *)
Definition last_two (parts : list string) : option (string * string) :=
  match rev parts with
  | z :: y :: _ => Some (y, z)
  | _ => None
  end.

Definition location_of (affil : string) : string :=
  if String.eqb affil EmptyString then "Unknown"
  else match last_two (split_on "," affil) with
       | Some (y, z) => strip y +++ ", " +++ strip z
       | None => "Unknown"
       end.

Definition affiliation_of (a : author_rec) : string :=
  match AffiliationInfo a with
  | Some (info :: _) =>
      match info with
      | Some affil => affil
      | None => EmptyString
      end
  | _ => EmptyString
  end.

(** The body of the loop over the author list: the entries appended. *)
Definition author_entry (a : author_rec) : list author :=
  match LastName a, ForeName a with
  | Some last, Some fore =>
      let affil := affiliation_of a in
      [ {| au_name := fore +++ " " +++ last;
           affiliation := affil;
           au_location := location_of affil |} ]
  | _, _ => []
  end.

Definition fetch_paper_details (E : env) (id : string) : result paper :=
  match efetch E id with
  | None => Raise ExternalError
  | Some records =>
      match records with
      | [] => Raise IndexError
      | art :: _ =>
          match AuthorList art with
          | None => Raise KeyError
          | Some al =>
              Ret {| pmid := id;
                     paper_title := ArticleTitle art;
                     authors := flat_map author_entry al |}
          end
      end
  end.

(** *** The lead: the dict the three stages pass on *)

Inductive lead_source : Type := PubMed | Conference.

(** A key that is absent from the dict is [None]. The program updates
    the dict of a lead in place; each dict is built once and stands at one
    position of one list, so that a function from the lead to the updated
    lead says the same. *)
Record person : Type := {
  name : pyval;
  title : string;
  company : string;
  location : pyval;
  source : lead_source;
  has_recent_paper : option bool;
  linkedin : option pyval;
  email : option pyval;
  score : option Z
}.

Definition set_has_recent_paper (b : bool) (p : person) : person :=
  {| name := name p; title := title p; company := company p;
     location := location p; source := source p;
     has_recent_paper := Some b;
     linkedin := linkedin p; email := email p; score := score p |}.

Definition set_contact (li em loc : pyval) (p : person) : person :=
  {| name := name p; title := title p; company := company p;
     location := loc; source := source p;
     has_recent_paper := has_recent_paper p;
     linkedin := Some li; email := Some em; score := score p |}.

Definition set_score (z : Z) (p : person) : person :=
  {| name := name p; title := title p; company := company p;
     location := location p; source := source p;
     has_recent_paper := has_recent_paper p;
     linkedin := linkedin p; email := email p; score := Some z |}.

(** *** [scrape_conference_attendees] *)

Definition names_prompt (snippets : list string) : string :=
  block
    [ "Extract names of speakers or attendees from the following search snippets about SOT toxicology conference.";
      "Snippets: " +++ join " " snippets;
      "";
      "Return a list of up to 20 names in JSON format, e.g., ["
        +++ dq +++ "Name1" +++ dq +++ ", " +++ dq +++ "Name2" +++ dq +++ "]." ].

(** The [if MODEL and not quota_exceeded: ... else: names = []] part. *)
Definition llm_names (E : env) (snippets : list string) : M pyval :=
  q <- get_quota ;;
  if MODEL E && negb q then
    r <- call_model E NameExtraction (names_prompt snippets) ;;
    match r with
    | Raises msg => handle_llm_error NameExtraction msg ;;; ret (VList [])
    | Replies text =>
        match json_loads E (unfence text) with
        | inr names => ret names
        | inl msg => handle_llm_error NameExtraction msg ;;; ret (VList [])
        end
    end
  else ret (VList []).

(** The [if not names:] part, entered with a falsy [names]: only a list
    has [extend], which is called once per snippet, and [set] needs an
    iterable. *)
Definition regex_names (E : env) (names : pyval) (snippets : list string)
  : result pyval :=
  let found := flat_map findall_names snippets in
  let capped := VList (map VStr (firstn 20 (list_of_set E found))) in
  match names with
  | VList _ => Ret capped
  | VStr _ | VDict _ =>
      match snippets with
      | [] => Ret (VList [])
      | _ :: _ => Raise (AttributeError (no_attribute names "extend"))
      end
  | _ =>
      match snippets with
      | [] => Raise (TypeError (not_iterable names))
      | _ :: _ => Raise (AttributeError (no_attribute names "extend"))
      end
  end.

Definition attendee (nm : pyval) : person :=
  {| name := nm; title := "Speaker"; company := "Unknown";
     location := VStr "Unknown"; source := Conference;
     has_recent_paper := None; linkedin := None; email := None;
     score := None |}.

Definition scrape_conference_attendees (E : env) : M (list person) :=
  snippets <- search_snippets E "SOT toxicology conference speakers 2024" 10 ;;
  names <- llm_names E snippets ;;
  names <- (if truthy names then ret names
            else lift (regex_names E names snippets)) ;;
  items <- lift (py_iter names) ;;
  ret (map attendee items).

(** *** [enrich_person] *)

Definition enrich_prompt (E : env) (nm : pyval) (co : string)
  (linkedin_snippets email_snippets location_snippets : list string) : string :=
  block
    [ "Extract information for " +++ fmt E nm +++ " at " +++ co
        +++ " from the following search snippets.";
      "";
      "LinkedIn snippets: " +++ join " " linkedin_snippets;
      "Email snippets: " +++ join " " email_snippets;
      "Location snippets: " +++ join " " location_snippets;
      "";
      "Return JSON with:";
      "- linkedin: LinkedIn URL if found, else null";
      "- email: Email if found, else null";
      "- location: HQ location if found, else null" ].

(** The three values the model path leaves in [linkedin], [email] and
    [location]; all [None] when the model is not called or fails. *)
Definition no_contact : pyval * pyval * pyval := (VNone, VNone, VNone).

Definition read_contact (data : pyval) : result (pyval * pyval * pyval) :=
  match py_get data "linkedin" with
  | Raise e => Raise e
  | Ret li =>
      match py_get data "email" with
      | Raise e => Raise e
      | Ret em =>
          match py_get data "location" with
          | Raise e => Raise e
          | Ret loc => Ret (li, em, loc)
          end
      end
  end.

Definition exn_text (e : exn) : string :=
  match e with
  | AttributeError msg => msg
  | TypeError msg => msg
  | IndexError => "list index out of range"
  | KeyError => EmptyString
  | ExternalError => EmptyString
  end.

Definition llm_contact (E : env) (prompt : string) : M (pyval * pyval * pyval) :=
  q <- get_quota ;;
  if MODEL E && negb q then
    r <- call_model E Enrichment prompt ;;
    match r with
    | Raises msg => handle_llm_error Enrichment msg ;;; ret no_contact
    | Replies text =>
        match json_loads E (unfence text) with
        | inl msg => handle_llm_error Enrichment msg ;;; ret no_contact
        | inr data =>
            match read_contact data with
            | Ret c => ret c
            | Raise e =>
                handle_llm_error Enrichment (exn_text e) ;;; ret no_contact
            end
        end
    end
  else ret no_contact.

(** [f"https://linkedin.com/in/{name.replace(' ', '').lower()}"] *)
Definition synth_linkedin (nm : pyval) : result pyval :=
  match nm with
  | VStr s => Ret (VStr ("https://linkedin.com/in/" +++ lower (remove_spaces s)))
  | _ => Raise (AttributeError (no_attribute nm "replace"))
  end.

(** [f"{name.split()[0].lower()}.{name.split()[-1].lower()}@{company.replace(' ', '').lower()}.com"] *)
Definition synth_email (nm : pyval) (co : string) : result pyval :=
  match nm with
  | VStr s =>
      match split_ws s with
      | [] => Raise IndexError
      | first :: rest =>
          Ret (VStr (lower first +++ "." +++ lower (last rest first) +++ "@"
                     +++ lower (remove_spaces co) +++ ".com"))
      end
  | _ => Raise (AttributeError (no_attribute nm "split"))
  end.

(** [v or fallback]: the fallback is evaluated only when [v] is falsy. *)
Definition py_or (v : pyval) (fallback : result pyval) : result pyval :=
  if truthy v then Ret v else fallback.

Definition enrich_person (E : env) (p : person) : M person :=
  let nm := name p in
  let co := company p in
  let who := dq +++ fmt E nm +++ dq +++ " " +++ dq +++ co +++ dq in
  linkedin_snippets <- search_snippets E (who +++ " linkedin") 5 ;;
  email_snippets <- search_snippets E (who +++ " email") 5 ;;
  location_snippets <-
    search_snippets E (dq +++ co +++ dq +++ " headquarters location") 3 ;;
  c <- llm_contact E (enrich_prompt E nm co linkedin_snippets email_snippets
                                    location_snippets) ;;
  let '(li, em, loc) := c in
  li' <- lift (py_or li (synth_linkedin nm)) ;;
  em' <- lift (py_or em (synth_email nm co)) ;;
  ret (set_contact li' em' (if truthy loc then loc else location p) p).

(** *** [calculate_score] *)

Definition score_prompt (co ti loc : string) (funding_snippets : list string)
  : string :=
  block
    [ "Analyze the following for " +++ co +++ " in biotech/toxicology space.";
      "Title: " +++ ti;
      "Location: " +++ loc;
      "Funding snippets: " +++ join " " funding_snippets;
      "";
      "Assign scores:";
      "- Role Fit (0-30): High if title contains toxicology, safety, etc.";
      "- Company Intent (0-20): High if recent funding (series A/B, raised money).";
      "- Technographic (0-15): Assume 15 for biotech.";
      "- Location (0-10): High if in Boston, Cambridge, etc.";
      "- Scientific Intent (0-40): High if has recent paper.";
      "";
      "Return total score (0-100)." ].

(** The number read in the reply, [int] of the match of
    [re.search(r'\d+', text)] and 0 without a match, or the text of the
    exception that [int] raises. *)
Definition read_score (text : string) : string + Z :=
  match search_digits (strip text) with
  | Some ds => py_int ds
  | None => inr 0%Z
  end.

(** The [if MODEL and not quota_exceeded: ... else: score = 0] part. *)
Definition llm_score (E : env) (prompt : string) : M Z :=
  q <- get_quota ;;
  if MODEL E && negb q then
    r <- call_model E Scoring prompt ;;
    match r with
    | Raises msg => handle_llm_error Scoring msg ;;; ret 0%Z
    | Replies text =>
        match read_score text with
        | inr z => ret z
        | inl msg => handle_llm_error Scoring msg ;;; ret 0%Z
        end
    end
  else ret 0%Z.

Definition title_words : list string :=
  ["toxicology"; "safety"; "hepatic"; "3d"; "preclinical"; "director"; "head"].

Definition hubs : list string :=
  ["boston"; "cambridge"; "san francisco"; "basel"; "london"].

Definition title_hit (ti : string) : bool :=
  existsb (fun word => contains word ti) title_words.

Definition funding_hit (funding_snippets : list string) : bool :=
  existsb (fun s => contains "series" (lower s) || contains "raised" (lower s))
          funding_snippets.

Definition hub_hit (loc : string) : bool :=
  existsb (fun hub => contains hub (lower loc)) hubs.

Definition bonus (b : bool) (n : Z) : Z := if b then n else 0%Z.

(** The lines after the comment [# Fallback], before the final [min]:
    what is added to [score]. [ti] and [loc] are already lower-case. *)
Definition heuristic_total (ti loc : string) (funding_snippets : list string)
  (recent : bool) : Z :=
  (bonus (title_hit ti) 30 + bonus (funding_hit funding_snippets) 20 + 15
   + bonus (hub_hit loc) 10 + bonus recent 40)%Z.

(** [person.get('has_recent_paper', False)] *)
Definition recent_paper (p : person) : bool :=
  match has_recent_paper p with
  | Some b => b
  | None => false
  end.

(** [person.get('location', '').lower()] *)
Definition lower_location (p : person) : result string :=
  match location p with
  | VStr s => Ret (lower s)
  | v => Raise (AttributeError (no_attribute v "lower"))
  end.

Definition calculate_score (E : env) (p : person) : M Z :=
  let ti := lower (title p) in
  let co := lower (company p) in
  loc <- lift (lower_location p) ;;
  funding_snippets <-
    search_snippets E (dq +++ co +++ dq +++ " series funding OR raised OR IPO") 5 ;;
  s0 <- llm_score E (score_prompt co ti loc funding_snippets) ;;
  ret (Z.min (s0 + heuristic_total ti loc funding_snippets (recent_paper p)) 100).

(** *** [run_biotech_pipeline], stage by stage

    The second definition of the function is the one in force. Calls of
    the dashboard ([st.write], [st.progress], ...) are left out. *)

Definition keywords : list string :=
  ["Drug-Induced Liver Injury"; "3D cell culture"; "Organ-on-chip";
   "Hepatic spheroids"; "Investigative Toxicology"].

(** The dict built for one author of a paper. *)
Definition citation_lead (a : author) : person :=
  {| name := VStr (au_name a);
     title := "Researcher";
     company := if String.eqb (affiliation a) EmptyString then "Unknown"
                else hd EmptyString (split_on "," (affiliation a));
     location := VStr (au_location a);
     source := PubMed;
     has_recent_paper := Some true;
     linkedin := None; email := None; score := None |}.

(** [for pmid in pmids: ...], started with the leads collected so far. *)
Fixpoint citation_loop (E : env) (pmids : list string) (leads : list person)
  : result (list person) :=
  match pmids with
  | [] => Ret leads
  | id :: rest =>
      match fetch_paper_details E id with
      | Raise e => Raise e
      | Ret pap => citation_loop E rest (leads ++ map citation_lead (authors pap))
      end
  end.

(** Stage 1. *)
Definition identification (E : env) : M (list person) :=
  pmids <- lift (search_pubmed E keywords 30) ;;
  leads <- lift (citation_loop E pmids []) ;;
  conf_leads <- scrape_conference_attendees E ;;
  ret (leads ++ map (set_has_recent_paper false) conf_leads).

(** [for i, lead in enumerate(todo): enriched_leads.append(enrich_person(lead))] *)
Fixpoint enrich_loop (E : env) (todo : list person) (enriched_leads : list person)
  : M (list person) :=
  match todo with
  | [] => ret enriched_leads
  | lead :: rest =>
      enriched <- enrich_person E lead ;;
      enrich_loop E rest (enriched_leads ++ [enriched])
  end.

(** Stage 2: the loop runs over [leads[:30]]. *)
Definition enrichment (E : env) (leads : list person) : M (list person) :=
  enrich_loop E (firstn 30 leads) [].

(** [for lead in enriched_leads: lead['score'] = calculate_score(lead)],
    with the leads already scored in [done]. *)
Fixpoint score_loop (E : env) (todo done : list person) : M (list person) :=
  match todo with
  | [] => ret done
  | lead :: rest =>
      z <- calculate_score E lead ;;
      score_loop E rest (done ++ [set_score z lead])
  end.

(** The key of the sort, [x['score']]. *)
Definition score_key (p : person) : Z :=
  match score p with
  | Some z => z
  | None => 0%Z
  end.

(** [enriched_leads.sort(key=lambda x: x['score'], reverse=True)]: [x]
    may stand in front of [y] when its score is not smaller. *)
Definition sort_leads (l : list person) : list person :=
  sort_by (desc_by score_key) l.

(** Stage 3. *)
Definition ranking (E : env) (enriched_leads : list person) : M (list person) :=
  scored <- score_loop E enriched_leads [] ;;
  ret (sort_leads scored).

(** [[lead for lead in enriched_leads if lead['score'] >= min_score]] *)
Definition filter_min_score (min_score : Z) (l : list person) : list person :=
  filter (fun lead => Z.leb min_score (score_key lead)) l.

(** The three stages in a row; [None] is the early [return] taken when a
    setting is missing. *)
Definition run_biotech_pipeline (E : env) : M (option (list person)) :=
  if negb (GEMINI_API_KEY E) then ret None
  else if negb (EMAIL E) then ret None
  else
    leads <- identification E ;;
    enriched_leads <- enrichment E leads ;;
    ranked <- ranking E enriched_leads ;;
    ret (Some ranked).

(* ================================================================== *)
(** ** Concrete worlds, for examples *)
(* ================================================================== *)

Module Demo.

(** A world without a model, in which every search finds two snippets
    and the literature database knows one paper with one author. *)
Definition offline : env :=
  {| GEMINI_API_KEY := true;
     EMAIL := true;
     MODEL := false;
     generate_content := fun _ _ => Raises "no model";
     json_loads := fun _ => inl "Expecting value: line 1 column 1 (char 0)";
     ddgs_text := fun _ _ =>
       Some ["Acme Bio raised a Series B round."; "Talk by Mary Major."];
     esearch := fun _ _ => Some ["101"];
     efetch := fun _ =>
       Some [ {| ArticleTitle := "Hepatic spheroids";
                 AuthorList := Some
                   [ {| LastName := Some "Doe"; ForeName := Some "Jane";
                        AffiliationInfo := Some [Some "Acme Inc, Boston, MA"] |} ] |} ];
     py_str := fun _ => "?";
     set_rank := String.length |}.

(** The same world with a model that answers every prompt with [reply]
    and a [json.loads] that knows the one text [reply] and its value. *)
Definition online (reply : string) (value : pyval) : env :=
  {| GEMINI_API_KEY := true;
     EMAIL := true;
     MODEL := true;
     generate_content := fun _ _ => Replies reply;
     json_loads := fun text =>
       if String.eqb text (unfence reply) then inr value
       else inl "Expecting value: line 1 column 1 (char 0)";
     ddgs_text := ddgs_text offline;
     esearch := esearch offline;
     efetch := efetch offline;
     py_str := py_str offline;
     set_rank := set_rank offline |}.

(** A world whose model refuses every call for lack of quota. *)
Definition throttled : env :=
  {| GEMINI_API_KEY := true;
     EMAIL := true;
     MODEL := true;
     generate_content := fun _ _ =>
       Raises "429 Resource has been exhausted (e.g. check quota).";
     json_loads := json_loads offline;
     ddgs_text := ddgs_text offline;
     esearch := esearch offline;
     efetch := efetch offline;
     py_str := py_str offline;
     set_rank := set_rank offline |}.

(** The text of a JSON array of strings. *)
Definition json_array (items : list string) : string :=
  "[" +++ join ", " (map (fun x => dq +++ x +++ dq) items) +++ "]".

(** A world whose model answers with the JSON array of [items], which
    [json.loads] turns into the list of these strings. *)
Definition naming (items : list string) : env :=
  online (json_array items) (VList (map VStr items)).

(** Twenty-one names, [Speaker A] to [Speaker U]. *)
Definition names21 : list string :=
  map (fun i => "Speaker " +++ String (ascii_of_nat (65 + i)) EmptyString)
      (seq 0 21).

(** A world in which the search finds three papers and the details of
    the second cannot be fetched. *)
Definition flaky : env :=
  {| GEMINI_API_KEY := true;
     EMAIL := true;
     MODEL := false;
     generate_content := generate_content offline;
     json_loads := json_loads offline;
     ddgs_text := ddgs_text offline;
     esearch := fun _ _ => Some ["100"; "101"; "102"];
     efetch := fun id => if String.eqb id "101" then None else efetch offline id;
     py_str := py_str offline;
     set_rank := set_rank offline |}.

(** A lead whose name is one space. *)
Definition blank : person :=
  {| name := VStr " "; title := "Speaker"; company := "Acme Inc";
     location := VStr "Unknown"; source := Conference;
     has_recent_paper := Some false;
     linkedin := None; email := None; score := None |}.

Definition jane : person :=
  {| name := VStr "Jane Doe"; title := "Head of Toxicology";
     company := "Acme Inc"; location := VStr "Boston, MA";
     source := PubMed; has_recent_paper := Some true;
     linkedin := None; email := None; score := None |}.

Definition speaker : person :=
  set_has_recent_paper false (attendee (VStr "Mary Major")).

(** [jane] after an enrichment that found nothing. *)
Definition jane_enriched : person :=
  set_contact (VStr "https://linkedin.com/in/janedoe")
              (VStr "jane.doe@acmeinc.com") (VStr "Boston, MA") jane.

(** A reply of 4301 digits. *)
Definition nines : string := string_of_list_ascii (repeat "9"%char 4301).

(** A world whose model answers every prompt with [nines]. *)
Definition longwinded : env := online nines VNone.

(** A world whose model answers with text that is no JSON, and whose
    [json.loads] reports the error at column 429. *)
Definition garbled : env :=
  {| GEMINI_API_KEY := true;
     EMAIL := true;
     MODEL := true;
     generate_content := fun _ _ => Replies "I could not find any names.";
     json_loads := fun _ =>
       inl "Expecting ',' delimiter: line 1 column 429 (char 428)";
     ddgs_text := ddgs_text offline;
     esearch := esearch offline;
     efetch := efetch offline;
     py_str := py_str offline;
     set_rank := set_rank offline |}.

(** A world with a model in which every web search fails. *)
Definition disconnected : env :=
  {| GEMINI_API_KEY := true;
     EMAIL := true;
     MODEL := true;
     generate_content := fun _ _ => Replies "50";
     json_loads := json_loads offline;
     ddgs_text := fun _ _ => None;
     esearch := esearch offline;
     efetch := efetch offline;
     py_str := py_str offline;
     set_rank := set_rank offline |}.

(** A world without a model in which the search finds thirty papers. *)
Definition crowded : env :=
  {| GEMINI_API_KEY := true;
     EMAIL := true;
     MODEL := false;
     generate_content := generate_content offline;
     json_loads := json_loads offline;
     ddgs_text := ddgs_text offline;
     esearch := fun _ _ => Some (repeat "101" 30);
     efetch := efetch offline;
     py_str := py_str offline;
     set_rank := set_rank offline |}.

(** The world [offline] without the key of the model service. *)
Definition unconfigured : env :=
  {| GEMINI_API_KEY := false;
     EMAIL := true;
     MODEL := false;
     generate_content := generate_content offline;
     json_loads := json_loads offline;
     ddgs_text := ddgs_text offline;
     esearch := esearch offline;
     efetch := efetch offline;
     py_str := py_str offline;
     set_rank := set_rank offline |}.

End Demo.


(* ================================================================== *)
(** ** Notions used in the statements *)
(* ================================================================== *)

(** The query of the funding search of [calculate_score]. *)
Definition funding_query (p : person) : string :=
  dq +++ lower (company p) +++ dq +++ " series funding OR raised OR IPO".

(** The score the model path of [calculate_score] leaves in [score] when
    it is entered in state [s] with [prompt]: the number read in the
    reply, and 0 when there is no model, the quota flag is set, the call
    fails or the number cannot be converted. *)
Definition model_score (E : env) (s : state) (prompt : string) : Z :=
  if MODEL E && negb (quota_exceeded s) then
    match generate_content E (List.length (trace s)) prompt with
    | Replies text =>
        match read_score text with
        | inr z => z
        | inl _ => 0%Z
        end
    | Raises _ => 0%Z
    end
  else 0%Z.

(** [w in s], in words: [w] stands somewhere in [s]. *)
Definition occurs_in (w s : string) : Prop :=
  exists pre post, s = pre +++ w +++ post.

(** [ds] is the first integer written in [text]: a run of digits with no
    digit in front of it and none behind its end. *)
Definition first_integer (text ds : string) : Prop :=
  exists pre post,
    text = pre +++ ds +++ post
    /\ all_chars (fun c => negb (is_digit c)) pre = true
    /\ all_chars is_digit ds = true /\ ds <> EmptyString
    /\ stops is_digit post = true.

(** The number a run of digits writes in base ten. *)
Inductive decimal : string -> Z -> Prop :=
| decimal_nil : decimal EmptyString 0%Z
| decimal_snoc ds c n :
    decimal ds n ->
    decimal (ds +++ String c EmptyString) (10 * n + Z.of_nat (code c - 48))%Z.

(** The score the model contributes, case by case: 0 when the model is
    not called or the call fails, the first integer of the reply when
    there is one of at most 4300 digits, 0 when the reply holds no digit
    or its first integer is longer. *)
Inductive model_reading (E : env) (s : state) (prompt : string) : Z -> Prop :=
| reading_unavailable :
    MODEL E = false \/ quota_exceeded s = true ->
    model_reading E s prompt 0%Z
| reading_failed msg :
    MODEL E = true -> quota_exceeded s = false ->
    generate_content E (List.length (trace s)) prompt = Raises msg ->
    model_reading E s prompt 0%Z
| reading_nothing text :
    MODEL E = true -> quota_exceeded s = false ->
    generate_content E (List.length (trace s)) prompt = Replies text ->
    all_chars (fun c => negb (is_digit c)) (strip text) = true ->
    model_reading E s prompt 0%Z
| reading_integer text ds n :
    MODEL E = true -> quota_exceeded s = false ->
    generate_content E (List.length (trace s)) prompt = Replies text ->
    first_integer (strip text) ds ->
    (String.length ds <= 4300)%nat ->
    decimal ds n ->
    model_reading E s prompt n
| reading_too_long text ds :
    MODEL E = true -> quota_exceeded s = false ->
    generate_content E (List.length (trace s)) prompt = Replies text ->
    first_integer (strip text) ds ->
    (4300 < String.length ds)%nat ->
    model_reading E s prompt 0%Z.

(** A match of [[A-Z][a-z]+]: a capital followed by one small letter or
    more. *)
Definition word (w : string) : Prop :=
  exists c small,
    w = String c small /\ is_upper c = true
    /\ small <> EmptyString /\ all_chars is_lower small = true.

(** [m] is the match of [[A-Z][a-z]+ [A-Z][a-z]+] at the head of [s], and
    [rest] what follows it: two words with one space between them, the
    second word taking every small letter it can. *)
Definition name_at (s m rest : string) : Prop :=
  exists w1 w2,
    word w1 /\ word w2 /\ m = w1 +++ " " +++ w2
    /\ s = m +++ rest /\ stops is_lower rest = true.

(** What [re.findall] returns for the pattern: the matches from left to
    right, each search starting where the match before it ended, a place
    without a match being passed over. *)
Inductive scan : string -> list string -> Prop :=
| scan_end : scan EmptyString []
| scan_match s m rest found :
    name_at s m rest -> scan rest found -> scan s (m :: found)
| scan_skip c s found :
    (forall m rest, ~ name_at (String c s) m rest) ->
    scan s found -> scan (String c s) found.

(** A non-empty Python string. *)
Definition nonempty_str (v : pyval) : Prop :=
  exists s, v = VStr s /\ s <> EmptyString.

Definition is_call (e : event) : bool :=
  match e with
  | LlmCall _ _ => true
  | QuotaSet _ => false
  end.

Definition is_quota_set (e : event) : bool :=
  match e with
  | LlmCall _ _ => false
  | QuotaSet _ => true
  end.

(** In a chronological list of events, no call of the model comes after
    the flag has been set. *)
Definition silent_after_quota (h : list event) : Prop :=
  forall before after site,
    h = before ++ QuotaSet site :: after ->
    forall e, In e after -> is_call e = false.

(** In a trace, most recent event first: whatever is older than a call
    of the model is not a setting of the flag. *)
Fixpoint calls_first (tr : list event) : Prop :=
  match tr with
  | [] => True
  | e :: older =>
      (is_call e = true -> forall e', In e' older -> is_quota_set e' = false)
      /\ calls_first older
  end.

(** The flag is down only if it was never set, and every call in the
    trace was made before any setting of the flag. *)
Definition consistent (s : state) : Prop :=
  (quota_exceeded s = false -> forall e, In e (trace s) -> is_quota_set e = false)
  /\ calls_first (trace s).

(** [m] keeps [P] true of the state, whether it returns or raises. *)
Definition preserves {A} (P : state -> Prop) (m : M A) : Prop :=
  forall s, P s -> P (final (m s)).

(** Once the flag is set, [m] neither calls the model nor touches the
    state. *)
Definition frozen {A} (m : M A) : Prop :=
  forall s, quota_exceeded s = true -> final (m s) = s.

(** A lead and what the scoring loop makes of it. *)
Definition scored_from (E : env) (lead q : person) : Prop :=
  exists z s1 s2, calculate_score E lead s1 = Ok z s2 /\ q = set_score z lead.

(** A lead and what [enrich_person] makes of it: the same lead with its
    contact fields filled. *)
Definition enriched_from (E : env) (lead e : person) : Prop :=
  exists s1 s2,
    enrich_person E lead s1 = Ok e s2
    /\ name e = name lead /\ title e = title lead /\ company e = company lead
    /\ source e = source lead /\ linkedin e <> None /\ email e <> None.

(** The part of the search queries of [enrich_person] that names the
    person and the company. *)
Definition who (E : env) (p : person) : string :=
  dq +++ fmt E (name p) +++ dq +++ " " +++ dq +++ company p +++ dq.

Definition headquarters_query (p : person) : string :=
  dq +++ company p +++ dq +++ " headquarters location".


(** What the loop over the papers makes of the authors of a paper. *)
Definition citation_shape (p : person) : Prop :=
  source p = PubMed /\ nonempty_str (name p) /\ title p = "Researcher"
  /\ nonempty_str (location p) /\ has_recent_paper p = Some true.


(** The leads of one identifier, when its details can be fetched. *)
Definition leads_of (E : env) (id : string) : list person :=
  match fetch_paper_details E id with
  | Ret pap => map citation_lead (authors pap)
  | Raise _ => []
  end.

(** The names the fallback of the conference branch finds. *)
Definition fallback_names (E : env) (snippets : list string) : list string :=
  firstn 20 (list_of_set E (flat_map findall_names snippets)).

(** [x] is not below [y] in the key. *)
Definition ge_by {A : Type} (key : A -> Z) (x y : A) : Prop :=
  (key y <= key x)%Z.

(** The elements of [l] whose key is [k], in the order of [l]. *)
Definition keyed {A : Type} (key : A -> Z) (k : Z) (l : list A) : list A :=
  filter (fun a => Z.eqb (key a) k) l.

(** Descending order of the score. *)
Definition score_ge : person -> person -> Prop := ge_by score_key.

(** The leads of [l] whose score is [k], in the order of [l]. *)
Definition with_score : Z -> list person -> list person := keyed score_key.
(* ================================================================== *)
(** ** The rest of the program: start-up, filters, outreach link *)
(* ================================================================== *)

(** [s[n:]] *)
Fixpoint drop (n : nat) (s : string) : string :=
  match n, s with
  | O, _ => s
  | S _, EmptyString => EmptyString
  | S n', String _ s' => drop n' s'
  end.

(** [s.replace(old, new)] for a non-empty [old]: the occurrences of [old]
    are replaced from left to right, the search resuming behind each. An
    occurrence consumes at least one character of [s], so [length s]
    steps of fuel reach the end. *)
Fixpoint replace_fuel (fuel : nat) (old new s : string) : string :=
  match fuel with
  | O => s
  | S f =>
      match s with
      | EmptyString => EmptyString
      | String c s' =>
          if startswith old s
          then new +++ replace_fuel f old new (drop (String.length old) s)
          else String c (replace_fuel f old new s')
      end
  end.

Definition replace (old new s : string) : string :=
  replace_fuel (String.length s) old new s.

(** *** The choice of the model when the module is loaded *)

(** What the program reads of an entry of [genai.list_models()]. *)
Record model_info : Type := {
  model_name : string;
  supported_generation_methods : list string
}.

Definition preferred_models : list string :=
  ["gemini-pro"; "gemini-1.0-pro"; "gemini-1.5-pro"].

(** [x in l] for a list of strings. *)
Definition mem (x : string) (l : list string) : bool :=
  existsb (String.eqb x) l.

(** The list comprehension that builds [available]. *)
Definition available_models (listing : list model_info) : list string :=
  map (fun m => replace "models/" EmptyString (model_name m))
      (filter (fun m => mem "generateContent" (supported_generation_methods m))
              listing).

(** [for pref in prefs: if pref in available: ...; break] *)
Fixpoint first_preferred (prefs available : list string) : option string :=
  match prefs with
  | [] => None
  | pref :: rest =>
      if mem pref available then Some pref else first_preferred rest available
  end.

(** The name of the model behind [MODEL], [None] for [MODEL = None].
    [listing] is [None] when [genai.list_models()] raises, which the bare
    [except] turns into [MODEL = None]. *)
Definition select_model (listing : option (list model_info)) : option string :=
  match listing with
  | None => None
  | Some ms =>
      let available := available_models ms in
      match first_preferred preferred_models available with
      | Some pref => Some pref
      | None =>
          match available with
          | first :: _ => Some first
          | [] => None
          end
      end
  end.

(** *** The filters of the dashboard *)

(** [[lead for lead in leads if needle in lead.get('location', '').lower()]]:
    the leads are visited in order, and the first location that is not a
    string raises. *)
Fixpoint filter_by_location (needle : string) (leads : list person)
  : result (list person) :=
  match leads with
  | [] => Ret []
  | lead :: rest =>
      match lower_location lead with
      | Raise e => Raise e
      | Ret loc =>
          match filter_by_location needle rest with
          | Raise e => Raise e
          | Ret kept => Ret (if contains needle loc then lead :: kept else kept)
          end
      end
  end.

(** [[lead for lead in leads if needle in lead.get('company', '').lower()]] *)
Definition filter_by_company (needle : string) (leads : list person)
  : list person :=
  filter (fun lead => contains needle (lower (company lead))) leads.

(** The three filters in a row; a text filter is applied only when its
    text is not empty. *)
Definition filter_leads (min_score : Z) (location_filter company_filter : string)
  (enriched_leads : list person) : result (list person) :=
  let filtered_leads := filter_min_score min_score enriched_leads in
  match (if String.eqb location_filter EmptyString then Ret filtered_leads
         else filter_by_location (lower location_filter) filtered_leads) with
  | Raise e => Raise e
  | Ret filtered_leads =>
      Ret (if String.eqb company_filter EmptyString then filtered_leads
           else filter_by_company (lower company_filter) filtered_leads)
  end.

(** *** The link of the outreach mail *)

(** [body.replace('\n', '%0A').replace(' ', '%20')] *)
Definition encode_body (body : string) : string :=
  replace " " "%20" (replace nl "%0A" body).

(** *** Counting on the log *)

(** The number of calls of the model in a trace. *)
Definition calls (tr : list event) : nat := List.length (filter is_call tr).

(** The number of times the flag was set in a trace. *)
Definition settings (tr : list event) : nat :=
  List.length (filter is_quota_set tr).

(** [m] adds at most [n] calls of the model to the log, whether it
    returns or raises. *)
Definition adds_calls {A} (m : M A) (n : nat) : Prop :=
  forall s, (calls (trace (final (m s))) <= calls (trace s) + n)%nat.

(** The flag is set at most once, and when it is set that is the last
    thing logged. *)
Definition settled (s : state) : Prop :=
  if quota_exceeded s
  then exists site older,
         trace s = QuotaSet site :: older
         /\ forall e, In e older -> is_call e = true
  else forall e, In e (trace s) -> is_call e = true.

(** No character of [s] is [c]. *)
Definition lacks (c : ascii) (s : string) : bool :=
  all_chars (fun x => negb (Ascii.eqb x c)) s.

(** No character of [s] is a space. *)
Definition no_space (s : string) : bool :=
  all_chars (fun c => negb (Ascii.eqb c " ")) s.

(** No character of [s] is a space or a line feed. *)
Definition no_space_nl (s : string) : bool :=
  all_chars (fun c => negb (Ascii.eqb c " ") && negb (Ascii.eqb c (ascii_of_nat 10))) s.

(** The lead comes from a paper. *)
Definition from_paper (p : person) : bool :=
  match source p with
  | PubMed => true
  | Conference => false
  end.

(** The location of the lead is a string. *)
Definition location_is_text (p : person) : Prop :=
  exists loc, location p = VStr loc.

(** [l] keeps some of the elements of [l'], in their order. *)
Inductive sublist {A : Type} : list A -> list A -> Prop :=
| sublist_nil : sublist [] []
| sublist_skip x l l' : sublist l l' -> sublist l (x :: l')
| sublist_keep x l l' : sublist l l' -> sublist (x :: l) (x :: l').

(* ================================================================== *)
(** ** The primitives and the program on examples *)
(* ================================================================== *)

Example lower_ex : lower "Acme Inc" = "acme inc".
Proof. reflexivity. Qed.

Example split_on_ex :
  split_on "," "Acme Inc, Boston, MA" = ["Acme Inc"; " Boston"; " MA"].
Proof. reflexivity. Qed.

Example split_ws_ex : split_ws "  Jane  van Doe " = ["Jane"; "van"; "Doe"].
Proof. reflexivity. Qed.

Example strip_ex : strip "  a b  " = "a b".
Proof. reflexivity. Qed.

Example slice_ex : slice_7_m3 "```json[1]```" = "[1]".
Proof. reflexivity. Qed.

Example search_digits_ex :
  option_map int_of_digits (search_digits "Total score: 085/100") = Some 85%Z.
Proof. reflexivity. Qed.

Example findall_ex :
  findall_names "by AAnn Lee and Bob  Ray, Carl Orff-Xu Li"
  = ["Ann Lee"; "Carl Orff"; "Xu Li"].
Proof. reflexivity. Qed.

Example offline_score :
  calculate_score Demo.offline Demo.jane initial = Ok 100%Z initial.
Proof. reflexivity. Qed.

Example offline_speaker_score :
  calculate_score Demo.offline Demo.speaker initial = Ok 35%Z initial.
Proof. reflexivity. Qed.

Example online_speaker_score :
  exists s, calculate_score (Demo.online "Total: 20 of 100" VNone) Demo.speaker initial
            = Ok 55%Z s.
Proof. eexists. reflexivity. Qed.

Example offline_identification :
  exists s, identification Demo.offline initial
  = Ok [ {| name := VStr "Jane Doe"; title := "Researcher"; company := "Acme Inc";
            location := VStr "Boston, MA"; source := PubMed;
            has_recent_paper := Some true; linkedin := None; email := None;
            score := None |};
         set_has_recent_paper false (attendee (VStr "Acme Bio"));
         set_has_recent_paper false (attendee (VStr "Mary Major")) ] s.
Proof. eexists. vm_compute. reflexivity. Qed.

(* ================================================================== *)
(** ** Facts about the string primitives *)
(* ================================================================== *)

Lemma append_assoc (a b c : string) : (a +++ b) +++ c = a +++ b +++ c.
Proof. induction a as [|x a IH]; [reflexivity | cbn; rewrite IH; reflexivity]. Qed.

Lemma append_nonempty (a b : string) : b <> EmptyString -> a +++ b <> EmptyString.
Proof. destruct a; [intros H; exact H | discriminate]. Qed.

Lemma all_chars_app (p : ascii -> bool) (a b : string) :
  all_chars p (a +++ b) = all_chars p a && all_chars p b.
Proof.
  induction a as [|c a IH]; [reflexivity|].
  cbn. rewrite IH, andb_assoc. reflexivity.
Qed.

Lemma all_chars_impl (p q : ascii -> bool) (s : string) :
  (forall c, p c = true -> q c = true) ->
  all_chars p s = true -> all_chars q s = true.
Proof.
  intros H. induction s as [|c s IH]; [reflexivity|].
  cbn. intros Hs. apply andb_prop in Hs. destruct Hs as [Hc Hs].
  rewrite (H c Hc), (IH Hs). reflexivity.
Qed.

Lemma startswith_app (m post : string) : startswith m (m +++ post) = true.
Proof.
  induction m as [|c m IH]; [reflexivity|].
  cbn. rewrite Ascii.eqb_refl, IH. reflexivity.
Qed.

Lemma contains_app (m pre post : string) : contains m (pre +++ m +++ post) = true.
Proof.
  induction pre as [|c pre IH].
  - cbn [String.append]. pose proof (startswith_app m post) as H.
    destruct (m +++ post); cbn [contains]; [exact H | rewrite H; reflexivity].
  - cbn. rewrite IH. apply orb_true_r.
Qed.

(** The capitals and the whitespace beyond ASCII: [str.lower] turns
    U+00C9 into U+00E9 and leaves the sign U+00D7; a text of one no-break
    space has no token and strips to nothing. *)
Example latin1_ex :
  lower (String (ascii_of_nat 201) "COLE") = String (ascii_of_nat 233) "cole"
  /\ lower (String (ascii_of_nat 215) EmptyString) = String (ascii_of_nat 215) EmptyString
  /\ split_ws (String (ascii_of_nat 160) EmptyString) = []
  /\ strip (String (ascii_of_nat 160) ("Boston" +++ String (ascii_of_nat 133) EmptyString))
     = "Boston".
Proof. repeat split. Qed.

(** [int] converts a run of 4300 digits and refuses one of 4301. *)
Example py_int_ex :
  py_int "085" = inr 85%Z
  /\ (exists z, py_int (string_of_list_ascii (repeat "9"%char 4300)) = inr z)
  /\ py_int Demo.nines
     = inl "Exceeds the limit (4300 digits) for integer string conversion: value has 4301 digits; use sys.set_int_max_str_digits() to increase the limit".
Proof.
  split; [reflexivity|]. split; [eexists; vm_compute; reflexivity|].
  vm_compute. reflexivity.
Qed.

Lemma startswith_inv (w s : string) :
  startswith w s = true -> exists post, s = w +++ post.
Proof.
  revert s. induction w as [|c w IH]; intros s H.
  - exists s. reflexivity.
  - destruct s as [|x s]; [discriminate H|]. cbn in H.
    apply andb_prop in H. destruct H as [Hc Hw]. apply Ascii.eqb_eq in Hc. subst x.
    destruct (IH s Hw) as [post ->]. exists post. reflexivity.
Qed.

(** [contains] decides [occurs_in]. *)
Lemma contains_occurs (w s : string) : contains w s = true <-> occurs_in w s.
Proof.
  split.
  - induction s as [|c s IH]; cbn [contains]; intros H.
    + destruct (startswith_inv _ _ H) as [post Hp].
      exists EmptyString, post. exact Hp.
    + apply orb_prop in H. destruct H as [H|H].
      * destruct (startswith_inv _ _ H) as [post Hp].
        exists EmptyString, post. exact Hp.
      * destruct (IH H) as (pre & post & ->).
        exists (String c pre), post. reflexivity.
  - intros (pre & post & ->). apply contains_app.
Qed.

Lemma existsb_occurs (words : list string) (text : string) :
  existsb (fun w => contains w text) words = true
  <-> exists w, In w words /\ occurs_in w text.
Proof.
  rewrite existsb_exists. split; intros (w & Hin & H); exists w; split;
    try exact Hin; apply contains_occurs; exact H.
Qed.

Lemma lower_char_idem (c : ascii) : lower_char (lower_char c) = lower_char c.
Proof. destruct c as [[] [] [] [] [] [] [] []]; reflexivity. Qed.

Lemma lower_idem (s : string) : lower (lower s) = lower s.
Proof.
  induction s as [|c s IH]; [reflexivity|].
  cbn. rewrite lower_char_idem, IH. reflexivity.
Qed.

(** The value of a run of digits, digit by digit. *)
Lemma int_acc_decimal (ds : string) :
  forall pre n, decimal pre n -> decimal (pre +++ ds) (int_acc n ds).
Proof.
  induction ds as [|c ds IH]; intros pre n H; cbn [int_acc].
  - replace (pre +++ EmptyString) with pre; [exact H|].
    clear. induction pre as [|x pre IH]; [reflexivity | cbn; rewrite <- IH; reflexivity].
  - replace (pre +++ String c ds) with ((pre +++ String c EmptyString) +++ ds)
      by (rewrite append_assoc; reflexivity).
    apply IH. constructor. exact H.
Qed.

Lemma int_of_digits_decimal (ds : string) : decimal ds (int_of_digits ds).
Proof. apply (int_acc_decimal ds EmptyString 0%Z). constructor. Qed.

(* ================================================================== *)
(** ** The score: value and range *)
(* ================================================================== *)

Lemma span_spec (p : ascii -> bool) (s : string) :
  s = fst (span p s) +++ snd (span p s)
  /\ all_chars p (fst (span p s)) = true
  /\ stops p (snd (span p s)) = true.
Proof.
  induction s as [|c s IH]; [repeat split|].
  cbn [span]. destruct (p c) eqn:Hc.
  - destruct (span p s) as [a b]. cbn in *. destruct IH as (IH1 & IH2 & IH3).
    rewrite Hc, IH2. rewrite <- IH1. repeat split. exact IH3.
  - cbn. rewrite Hc. repeat split.
Qed.

(** The number read is the first one of the text: before the run found
    there is no digit, the run is made of digits, is not empty, and is
    not followed by a digit. *)
Lemma search_digits_first (s ds : string) :
  search_digits s = Some ds ->
  exists pre post,
    s = pre +++ ds +++ post
    /\ all_chars (fun c => negb (is_digit c)) pre = true
    /\ all_chars is_digit ds = true /\ ds <> EmptyString
    /\ stops is_digit post = true.
Proof.
  induction s as [|c s IH]; [discriminate|].
  cbn [search_digits]. destruct (is_digit c) eqn:Hc.
  - intros H. injection H as <-.
    destruct (span_spec is_digit (String c s)) as (H1 & H2 & H3).
    exists EmptyString, (snd (span is_digit (String c s))).
    split; [exact H1|]. split; [reflexivity|]. split; [exact H2|].
    split; [|exact H3]. cbn [span]. rewrite Hc.
    destruct (span is_digit s). discriminate.
  - intros H. destruct (IH H) as (pre & post & -> & Hpre & Hds & Hne & Hpost).
    exists (String c pre), post. split; [reflexivity|].
    split; [cbn; rewrite Hc, Hpre; reflexivity|].
    repeat split; assumption.
Qed.

Lemma search_digits_none (s : string) :
  search_digits s = None -> all_chars (fun c => negb (is_digit c)) s = true.
Proof.
  induction s as [|c s IH]; [reflexivity|].
  cbn [search_digits]. destruct (is_digit c) eqn:Hc; [discriminate|].
  intros H. cbn. rewrite Hc, (IH H). reflexivity.
Qed.

Lemma int_acc_nonneg (s : string) :
  forall acc, (0 <= acc)%Z -> (0 <= int_acc acc s)%Z.
Proof.
  induction s as [|c s IH]; intros acc Hacc; cbn [int_acc].
  - exact Hacc.
  - apply IH. unfold digit_val. lia.
Qed.

Lemma read_score_nonneg (text : string) (z : Z) :
  read_score text = inr z -> (0 <= z)%Z.
Proof.
  unfold read_score, py_int.
  destruct (search_digits (strip text)) as [ds|].
  - destruct (Nat.leb (String.length ds) int_max_str_digits); [|discriminate].
    intros H. injection H as <-. apply int_acc_nonneg. lia.
  - intros H. injection H as <-. lia.
Qed.

Lemma model_score_nonneg (E : env) (s : state) (prompt : string) :
  (0 <= model_score E s prompt)%Z.
Proof.
  unfold model_score.
  destruct (MODEL E && negb (quota_exceeded s)); [|lia].
  destruct (generate_content E _ prompt) as [msg|text]; [lia|].
  destruct (read_score text) as [msg|z] eqn:Hz; [lia|].
  eapply read_score_nonneg, Hz.
Qed.

Lemma bonus_range (b : bool) (n : Z) : (0 <= n)%Z -> (0 <= bonus b n <= n)%Z.
Proof. destruct b; simpl; lia. Qed.

Lemma heuristic_total_range ti loc fs recent :
  (15 <= heuristic_total ti loc fs recent <= 115)%Z.
Proof.
  unfold heuristic_total.
  pose proof (bonus_range (title_hit ti) 30).
  pose proof (bonus_range (funding_hit fs) 20).
  pose proof (bonus_range (hub_hit loc) 10).
  pose proof (bonus_range recent 40).
  lia.
Qed.

Lemma handle_llm_error_ok site msg s :
  exists s', handle_llm_error site msg s = Ok tt s'.
Proof.
  unfold handle_llm_error.
  destruct (contains "429" msg || contains "quota" (lower msg)); eexists; reflexivity.
Qed.

(** The model path of the scoring never raises, and leaves [model_score]. *)
Lemma llm_score_value (E : env) (prompt : string) (s : state) :
  exists s', llm_score E prompt s = Ok (model_score E s prompt) s'.
Proof.
  unfold llm_score, model_score, bind, get_quota.
  destruct (MODEL E && negb (quota_exceeded s)); [|eexists; reflexivity].
  unfold call_model.
  destruct (generate_content E (List.length (trace s)) prompt) as [msg|text].
  - match goal with |- context [handle_llm_error ?a ?b ?c] =>
      destruct (handle_llm_error_ok a b c) as [s' ->] end.
    eexists; reflexivity.
  - destruct (read_score text) as [msg|z]; [|eexists; reflexivity].
    match goal with |- context [handle_llm_error ?a ?b ?c] =>
      destruct (handle_llm_error_ok a b c) as [s' ->] end.
    eexists; reflexivity.
Qed.

(** What [calculate_score] returns when it returns. *)
Lemma calculate_score_value (E : env) (p : person) (s : state) loc fs :
  location p = VStr loc ->
  ddgs_text E (funding_query p) 5 = Some fs ->
  exists s',
    calculate_score E p s
    = Ok (Z.min (model_score E s (score_prompt (lower (company p))
                                   (lower (title p)) (lower loc) fs)
                 + heuristic_total (lower (title p)) (lower loc) fs (recent_paper p))
                100) s'.
Proof.
  intros Hloc Hfs.
  unfold calculate_score, lower_location, search_snippets, bind, lift.
  rewrite Hloc. cbn beta iota. unfold ret at 1. cbn beta iota.
  fold (funding_query p). rewrite Hfs. unfold ret at 1. cbn beta iota.
  match goal with |- context [llm_score E ?pr s] =>
    destruct (llm_score_value E pr s) as [s' ->] end.
  exists s'. reflexivity.
Qed.

(** It returns exactly when the location is a string and the funding
    search succeeds. *)
Lemma calculate_score_returns (E : env) (p : person) (s : state) z s' :
  calculate_score E p s = Ok z s' ->
  exists loc fs,
    location p = VStr loc /\ ddgs_text E (funding_query p) 5 = Some fs.
Proof.
  unfold calculate_score, lower_location, search_snippets, bind, lift.
  fold (funding_query p).
  destruct (location p) as [| | | |loc| |]; try discriminate.
  cbn beta iota. unfold ret at 1. cbn beta iota.
  destruct (ddgs_text E (funding_query p) 5) as [fs|]; try discriminate.
  intros _. exists loc, fs. split; reflexivity.
Qed.

(** *** The sort *)

Section SortFacts.
Context {A : Type}.
Variable before : A -> A -> bool.

Lemma insert_by_perm (x : A) (l : list A) :
  Permutation (insert_by before x l) (x :: l).
Proof.
  induction l as [|y l IH]; simpl.
  - apply Permutation_refl.
  - destruct (before x y).
    + apply Permutation_refl.
    + eapply perm_trans; [apply perm_skip, IH | apply perm_swap].
Qed.

Lemma sort_by_perm (l : list A) : Permutation (sort_by before l) l.
Proof.
  induction l as [|x l IH]; simpl.
  - apply perm_nil.
  - eapply perm_trans; [apply insert_by_perm | apply perm_skip, IH].
Qed.

Lemma sort_by_in (l : list A) (x : A) : In x (sort_by before l) <-> In x l.
Proof.
  split; apply Permutation_in;
    [apply sort_by_perm | apply Permutation_sym, sort_by_perm].
Qed.

Lemma sort_by_Forall (P : A -> Prop) (l : list A) :
  Forall P l -> Forall P (sort_by before l).
Proof.
  rewrite !Forall_forall. intros H x Hx. apply H, sort_by_in, Hx.
Qed.
End SortFacts.

Section SortByKey.
Context {A : Type}.
Variable key : A -> Z.

Lemma insert_by_sorted (x : A) (l : list A) :
  StronglySorted (ge_by key) l ->
  StronglySorted (ge_by key) (insert_by (desc_by key) x l).
Proof.
  induction 1 as [|y l Hl IH Hy]; simpl.
  - constructor; constructor.
  - unfold desc_by at 1. destruct (Z.leb_spec (key y) (key x)) as [Hle|Hlt].
    + constructor; [constructor; assumption|].
      constructor; [exact Hle|].
      rewrite Forall_forall in *. intros z Hz. unfold ge_by in *.
      specialize (Hy z Hz). lia.
    + constructor; [exact IH|].
      rewrite Forall_forall in *. intros z Hz.
      apply (Permutation_in _ (insert_by_perm (desc_by key) x l)) in Hz.
      destruct Hz as [<-|Hz]; [unfold ge_by; lia | apply Hy, Hz].
Qed.

Lemma sort_by_sorted (l : list A) :
  StronglySorted (ge_by key) (sort_by (desc_by key) l).
Proof.
  induction l as [|x l IH]; simpl; [constructor | apply insert_by_sorted, IH].
Qed.

(** An element passes only elements of a strictly greater key, so the
    elements of any one key stay in the order they had. *)
Lemma insert_by_keyed (k : Z) (x : A) (l : list A) :
  keyed key k (insert_by (desc_by key) x l) = keyed key k (x :: l).
Proof.
  induction l as [|y l IH]; [reflexivity|].
  cbn [insert_by]. unfold desc_by at 1.
  destruct (Z.leb_spec (key y) (key x)) as [Hle|Hlt]; [reflexivity|].
  unfold keyed in *. cbn [filter] in *. rewrite IH.
  destruct (Z.eqb_spec (key x) k), (Z.eqb_spec (key y) k);
    try reflexivity; lia.
Qed.

Lemma sort_by_keyed (k : Z) (l : list A) :
  keyed key k (sort_by (desc_by key) l) = keyed key k l.
Proof.
  induction l as [|x l IH]; [reflexivity|].
  cbn [sort_by]. rewrite insert_by_keyed.
  unfold keyed in *. cbn [filter]. rewrite IH. reflexivity.
Qed.
End SortByKey.

Lemma sort_leads_sorted (l : list person) :
  StronglySorted score_ge (sort_leads l).
Proof. apply sort_by_sorted. Qed.

Lemma sort_leads_stable (k : Z) (l : list person) :
  with_score k (sort_leads l) = with_score k l.
Proof. apply sort_by_keyed. Qed.

Lemma sort_leads_perm (l : list person) : Permutation (sort_leads l) l.
Proof. apply sort_by_perm. Qed.

(** *** The scoring loop *)

Lemma score_loop_inv (E : env) (todo : list person) :
  forall done s out s',
    score_loop E todo done s = Ok out s' ->
    exists scored, out = done ++ scored /\ Forall2 (scored_from E) todo scored.
Proof.
  induction todo as [|lead rest IH]; intros done s out s' H.
  - injection H as <- _. exists []. rewrite app_nil_r. split; constructor.
  - cbn [score_loop] in H. unfold bind in H.
    destruct (calculate_score E lead s) as [z s1|e s1] eqn:Hz; [|discriminate].
    apply IH in H. destruct H as (scored & -> & HF).
    exists (set_score z lead :: scored). split.
    + rewrite <- app_assoc. reflexivity.
    + constructor; [|exact HF]. exists z, s, s1. split; [exact Hz | reflexivity].
Qed.

Lemma ranking_inv (E : env) (l : list person) s out s' :
  ranking E l s = Ok out s' ->
  exists scored, Forall2 (scored_from E) l scored /\ out = sort_leads scored.
Proof.
  unfold ranking, bind. intros H.
  destruct (score_loop E l [] s) as [scored s1|e s1] eqn:Hl; [|discriminate].
  injection H as <- _.
  apply score_loop_inv in Hl. destruct Hl as (sc & -> & HF).
  exists sc. split; [exact HF | reflexivity].
Qed.

Lemma calculate_score_bounds (E : env) (p : person) s z s' :
  calculate_score E p s = Ok z s' -> (15 <= z <= 100)%Z.
Proof.
  intros H. destruct (calculate_score_returns _ _ _ _ _ H) as (loc & fs & Hloc & Hfs).
  destruct (calculate_score_value E p s loc fs Hloc Hfs) as [s2 Heq].
  rewrite Heq in H. injection H as <- _.
  match goal with |- context [model_score ?a ?b ?c] =>
    pose proof (model_score_nonneg a b c) end.
  match goal with |- context [heuristic_total ?a ?b ?c ?d] =>
    pose proof (heuristic_total_range a b c d) end.
  lia.
Qed.

Lemma scored_from_key (E : env) (lead q : person) :
  scored_from E lead q -> (15 <= score_key q <= 100)%Z.
Proof.
  intros (z & s1 & s2 & Hz & ->). unfold score_key, set_score. cbn.
  eapply calculate_score_bounds, Hz.
Qed.

Lemma ranking_keys (E : env) (l : list person) s out s' :
  ranking E l s = Ok out s' ->
  Forall (fun p => (15 <= score_key p <= 100)%Z) out.
Proof.
  intros H. apply ranking_inv in H. destruct H as (scored & HF & ->).
  apply sort_by_Forall.
  induction HF as [|lead q l1 l2 Hq _ IH]; constructor;
    [eapply scored_from_key, Hq | exact IH].
Qed.

(** C1. Whatever the model replies and whatever the title, the location,
    the funding snippets and the publication flag are, a score that
    [calculate_score] returns is an integer between 0 and 100; it does
    return one whenever the location is a string and the funding search
    answers; and when all four conditional bonuses fire, the sum before
    the clamp is at least 115 and the score is exactly 100. *)
Theorem calculate_score_in_range (E : env) (p : person) (s : state) :
  (forall z s', calculate_score E p s = Ok z s' -> (0 <= z <= 100)%Z)
  /\ (forall loc fs,
        location p = VStr loc ->
        ddgs_text E (funding_query p) 5 = Some fs ->
        exists z s',
          calculate_score E p s = Ok z s' /\ (0 <= z <= 100)%Z
          /\ (title_hit (lower (title p)) = true ->
              funding_hit fs = true ->
              hub_hit (lower loc) = true ->
              recent_paper p = true ->
              heuristic_total (lower (title p)) (lower loc) fs (recent_paper p)
              = (30 + 20 + 15 + 10 + 40)%Z
              /\ z = 100%Z)).
Proof.
  split.
  - intros z s' H. apply calculate_score_bounds in H. lia.
  - intros loc fs Hloc Hfs.
    destruct (calculate_score_value E p s loc fs Hloc Hfs) as [s' Heq].
    eexists; exists s'. split; [exact Heq|].
    pose proof (calculate_score_bounds _ _ _ _ _ Heq) as Hb.
    split; [lia|].
    intros Ht Hf Hh Hr. unfold heuristic_total. rewrite Ht, Hf, Hh, Hr.
    cbn [bonus]. split; [reflexivity|].
    match goal with |- context [model_score ?a ?b ?c] =>
      pose proof (model_score_nonneg a b c) end.
    lia.
Qed.

Lemma calculate_score_in_range_witness :
  exists z s',
    calculate_score Demo.offline Demo.jane initial = Ok z s'
    /\ (0 <= z <= 100)%Z /\ z = 100%Z.
Proof.
  destruct (calculate_score_in_range Demo.offline Demo.jane initial) as [_ H].
  destruct (H "Boston, MA"
              ["Acme Bio raised a Series B round."; "Talk by Mary Major."]
              eq_refl eq_refl) as (z & s' & Heq & Hr & Hmax).
  exists z, s'. split; [exact Heq|]. split; [exact Hr|].
  apply Hmax; reflexivity.
Defined.

Lemma model_score_reading (E : env) (s : state) (prompt : string) :
  model_reading E s prompt (model_score E s prompt).
Proof.
  unfold model_score.
  destruct (MODEL E) eqn:Hm; cbn [andb];
    [|apply reading_unavailable; left; exact Hm].
  destruct (quota_exceeded s) eqn:Hq; cbn [negb];
    [apply reading_unavailable; right; exact Hq|].
  destruct (generate_content E (List.length (trace s)) prompt) as [msg|text] eqn:Hr;
    [eapply reading_failed; eassumption|].
  unfold read_score.
  destruct (search_digits (strip text)) as [ds|] eqn:Hd.
  - apply search_digits_first in Hd.
    unfold py_int, int_max_str_digits.
    destruct (Nat.leb_spec (String.length ds) 4300) as [Hle|Hgt].
    + eapply reading_integer; try eassumption. apply int_of_digits_decimal.
    + eapply reading_too_long; eassumption.
  - apply search_digits_none in Hd. eapply reading_nothing; eassumption.
Qed.

(** C2, as the code has it. The score is what the model contributes
    plus the whole rule set, clamped to 100. The model contributes the
    first integer written in its reply, and 0 when the reply holds no
    digit, when the call fails, when there is no model, when the quota
    flag is set, and when that integer has more than 4300 digits, which
    [int] refuses to convert. The rules add 30 when a word of the title
    list occurs in the lower-case title, 20 when [series] or [raised]
    occurs in a funding snippet in lower case, 15 always, 10 when a hub
    occurs in the lower-case location, 40 for a recent paper; they are
    added also when the model answered. *)
Theorem score_is_reading_plus_rules (E : env) (p : person) (s : state) loc fs :
  location p = VStr loc ->
  ddgs_text E (funding_query p) 5 = Some fs ->
  exists (reading : Z) (title_rule funding_rule hub_rule recent : bool) s',
    calculate_score E p s
    = Ok (Z.min (reading
                 + ((if title_rule then 30 else 0)
                    + (if funding_rule then 20 else 0) + 15
                    + (if hub_rule then 10 else 0)
                    + (if recent then 40 else 0)))
                100) s'
    /\ model_reading E s
         (score_prompt (lower (company p)) (lower (title p)) (lower loc) fs)
         reading
    /\ (title_rule = true
        <-> exists w,
              In w ["toxicology"; "safety"; "hepatic"; "3d"; "preclinical";
                    "director"; "head"]
              /\ occurs_in w (lower (title p)))
    /\ (funding_rule = true
        <-> exists snippet,
              In snippet fs
              /\ (occurs_in "series" (lower snippet)
                  \/ occurs_in "raised" (lower snippet)))
    /\ (hub_rule = true
        <-> exists hub,
              In hub ["boston"; "cambridge"; "san francisco"; "basel"; "london"]
              /\ occurs_in hub (lower loc))
    /\ (recent = true <-> has_recent_paper p = Some true).
Proof.
  intros Hloc Hfs.
  destruct (calculate_score_value E p s loc fs Hloc Hfs) as [s' Heq].
  exists (model_score E s (score_prompt (lower (company p)) (lower (title p))
                                        (lower loc) fs)),
    (title_hit (lower (title p))), (funding_hit fs), (hub_hit (lower loc)),
    (recent_paper p), s'.
  split; [exact Heq|]. split; [apply model_score_reading|].
  split; [apply existsb_occurs|]. split; [|split].
  - unfold funding_hit. rewrite existsb_exists.
    split; intros (sn & Hin & H); exists sn; (split; [exact Hin|]).
    + apply orb_prop in H. destruct H as [H|H];
        [left | right]; apply contains_occurs, H.
    + apply orb_true_iff. destruct H as [H|H];
        [left | right]; apply contains_occurs, H.
  - unfold hub_hit. rewrite lower_idem. apply existsb_occurs.
  - unfold recent_paper. destruct (has_recent_paper p) as [[|]|];
      split; intros H; try reflexivity; discriminate H.
Qed.

Lemma score_is_reading_plus_rules_witness :
  exists (reading : Z) (title_rule funding_rule hub_rule recent : bool) s',
    calculate_score (Demo.online "Total: 20 of 100" VNone) Demo.speaker initial
    = Ok (Z.min (reading
                 + ((if title_rule then 30 else 0)
                    + (if funding_rule then 20 else 0) + 15
                    + (if hub_rule then 10 else 0)
                    + (if recent then 40 else 0)))
                100) s'.
Proof.
  destruct (score_is_reading_plus_rules (Demo.online "Total: 20 of 100" VNone)
              Demo.speaker initial "Unknown"
              ["Acme Bio raised a Series B round."; "Talk by Mary Major."]
              eq_refl eq_refl)
    as (reading & t & f & h & r & s' & Heq & _).
  exists reading, t, f, h, r, s'. exact Heq.
Defined.

(** C2, as the specification states it, fails: when the reply of the
    model is one integer of 4301 digits, this is the first integer
    found, and with the rules it would give 100 after the clamp; but
    [int] raises, the exception is caught, the model contributes 0 and
    the score is the rule total, here 35. *)
Lemma long_integer_counts_as_zero :
  search_digits (strip Demo.nines) = Some Demo.nines
  /\ Z.min (int_of_digits Demo.nines + (0 + 20 + 15 + 0 + 0)) 100 = 100%Z
  /\ calculate_score Demo.longwinded Demo.speaker initial
     = Ok 35%Z
          {| quota_exceeded := false;
             trace := [LlmCall Scoring
                         (score_prompt "unknown" "speaker" "unknown"
                            ["Acme Bio raised a Series B round.";
                             "Talk by Mary Major."])] |}.
Proof. vm_compute. repeat split. Qed.

(** C10. The baseline of 15 is added before the clamp whatever the lead
    is, so every score returned is at least 15, and so is every score in
    the output of the ranking stage: a minimum-score filter with a
    threshold of 15 or less removes nothing from it. *)
Theorem score_at_least_15 (E : env) :
  (forall p s z s', calculate_score E p s = Ok z s' -> (15 <= z <= 100)%Z)
  /\ (forall l s out s',
        ranking E l s = Ok out s' ->
        Forall (fun p => (15 <= score_key p <= 100)%Z) out
        /\ forall min_score, (min_score <= 15)%Z ->
             filter_min_score min_score out = out).
Proof.
  split.
  - intros p s z s'. apply calculate_score_bounds.
  - intros l s out s' H. pose proof (ranking_keys _ _ _ _ _ H) as HF.
    split; [exact HF|]. intros m Hm. unfold filter_min_score.
    clear H. induction HF as [|q out Hq _ IH]; [reflexivity|].
    cbn [filter]. destruct (Z.leb_spec m (score_key q)); [|lia].
    rewrite IH. reflexivity.
Qed.

Lemma score_at_least_15_witness :
  (15 <= 35 <= 100)%Z
  /\ filter_min_score 15 [set_score 35 Demo.speaker] = [set_score 35 Demo.speaker].
Proof.
  destruct (score_at_least_15 Demo.offline) as [Hs Hr].
  split.
  - exact (Hs Demo.speaker initial 35%Z initial eq_refl).
  - refine (proj2 (Hr [Demo.speaker] initial [set_score 35 Demo.speaker]
                      initial eq_refl) 15%Z _).
    lia.
Defined.

(* ================================================================== *)
(** ** The order of the ranking *)
(* ================================================================== *)

(** C4. The output of the ranking stage is the list of its input leads,
    each with its score, in descending order of the score; leads of equal
    score stand in the order in which the stage received them. *)
Theorem ranking_sorted_stable (E : env) (l : list person) s out s' :
  ranking E l s = Ok out s' ->
  exists scored,
    Forall2 (scored_from E) l scored
    /\ Permutation out scored
    /\ StronglySorted score_ge out
    /\ forall k, with_score k out = with_score k scored.
Proof.
  intros H. apply ranking_inv in H. destruct H as (scored & HF & ->).
  exists scored. split; [exact HF|]. split; [apply sort_leads_perm|].
  split; [apply sort_leads_sorted | intros k; apply sort_leads_stable].
Qed.

Lemma ranking_sorted_stable_witness :
  let mary := Demo.speaker in
  let rita := set_has_recent_paper false (attendee (VStr "Rita Roe")) in
  exists scored,
    Forall2 (scored_from Demo.offline) [mary; Demo.jane; rita] scored
    /\ Permutation
         [set_score 100 Demo.jane; set_score 35 mary; set_score 35 rita] scored
    /\ StronglySorted score_ge
         [set_score 100 Demo.jane; set_score 35 mary; set_score 35 rita]
    /\ forall k,
         with_score k [set_score 100 Demo.jane; set_score 35 mary; set_score 35 rita]
         = with_score k scored.
Proof.
  intros mary rita.
  exact (ranking_sorted_stable Demo.offline [mary; Demo.jane; rita] initial
           [set_score 100 Demo.jane; set_score 35 mary; set_score 35 rita]
           initial eq_refl).
Defined.

(* ================================================================== *)
(** ** The enrichment batch *)
(* ================================================================== *)

Lemma enrich_person_keeps (E : env) (p e : person) s s' :
  enrich_person E p s = Ok e s' -> enriched_from E p e.
Proof.
  intros H. exists s, s'. split; [exact H|].
  unfold enrich_person, bind in H.
  repeat match type of H with
         | match ?m with Ok _ _ => _ | Exn _ _ => _ end = _ =>
             destruct m as [? ?|? ?]; [|discriminate]
         | (let '(_, _) := ?c in _) _ = _ => destruct c
         end.
  injection H as <- _. cbn. repeat split; discriminate.
Qed.

Lemma enrich_loop_inv (E : env) (todo : list person) :
  forall acc s out s',
    enrich_loop E todo acc s = Ok out s' ->
    exists done, out = acc ++ done /\ Forall2 (enriched_from E) todo done.
Proof.
  induction todo as [|lead rest IH]; intros acc s out s' H.
  - injection H as <- _. exists []. rewrite app_nil_r. split; constructor.
  - cbn [enrich_loop] in H. unfold bind in H.
    destruct (enrich_person E lead s) as [e s1|x s1] eqn:He; [|discriminate].
    apply IH in H. destruct H as (done & -> & HF).
    exists (e :: done). split.
    + rewrite <- app_assoc. reflexivity.
    + constructor; [eapply enrich_person_keeps, He | exact HF].
Qed.

(** The loop comes to its end when each call of [enrich_person] does. *)
Lemma enrich_loop_returns (E : env) (todo : list person) :
  (forall lead s, In lead todo -> exists e s', enrich_person E lead s = Ok e s') ->
  forall acc s, exists out s', enrich_loop E todo acc s = Ok out s'.
Proof.
  induction todo as [|lead rest IH]; intros Hall acc s.
  - exists acc, s. reflexivity.
  - cbn [enrich_loop]. unfold bind.
    destruct (Hall lead s (or_introl eq_refl)) as (e & s1 & ->).
    apply IH. intros l' s2 Hin. apply Hall. right. exact Hin.
Qed.

(** C9. The enrichment stage works on the first 30 leads only: its output
    has [min (length leads) 30] elements, which are the enrichments of
    the first 30 input leads in their order; what follows the 30th lead
    has no part in the stage and is absent from its output. The stage
    returns whenever [enrich_person] returns on each of these leads. *)
Theorem enrichment_first_30 (E : env) (leads : list person) (s : state) :
  enrichment E leads s = enrichment E (firstn 30 leads) s
  /\ (forall out s',
        enrichment E leads s = Ok out s' ->
        List.length out = Nat.min (List.length leads) 30
        /\ Forall2 (enriched_from E) (firstn 30 leads) out)
  /\ ((forall lead s1, In lead (firstn 30 leads) ->
         exists e s2, enrich_person E lead s1 = Ok e s2) ->
      exists out s', enrichment E leads s = Ok out s').
Proof.
  split; [|split].
  - unfold enrichment. rewrite firstn_firstn. reflexivity.
  - intros out s' H. unfold enrichment in H.
    apply enrich_loop_inv in H. destruct H as (done & -> & HF).
    cbn [app]. split; [|exact HF].
    rewrite <- (Forall2_length HF), length_firstn. lia.
  - intros Hall. apply enrich_loop_returns. exact Hall.
Qed.

Lemma enrichment_first_30_witness :
  exists out s',
    enrichment Demo.offline (repeat Demo.jane 31) initial = Ok out s'
    /\ List.length out = 30%nat
    /\ Forall2 (enriched_from Demo.offline) (repeat Demo.jane 30) out.
Proof.
  destruct (enrichment_first_30 Demo.offline (repeat Demo.jane 31) initial)
    as (_ & Hout & _).
  assert (H : enrichment Demo.offline (repeat Demo.jane 31) initial
              = Ok (repeat Demo.jane_enriched 30) initial)
    by (vm_compute; reflexivity).
  exists (repeat Demo.jane_enriched 30), initial.
  split; [exact H|]. exact (Hout _ _ H).
Defined.

(* ================================================================== *)
(** ** The quota flag *)
(* ================================================================== *)

(** *** Once the flag is set, nothing happens to the state *)

Section Frozen.
Context {A B : Type}.

Lemma frozen_ret (a : A) : frozen (ret a).
Proof. intros s _. reflexivity. Qed.

Lemma frozen_raise (e : exn) : frozen (@raise A e).
Proof. intros s _. reflexivity. Qed.

Lemma frozen_lift (r : result A) : frozen (lift r).
Proof. destruct r; [apply frozen_ret | apply frozen_raise]. Qed.

Lemma frozen_bind (m : M A) (k : A -> M B) :
  frozen m -> (forall a, frozen (k a)) -> frozen (bind m k).
Proof.
  intros Hm Hk s Hq. unfold bind. specialize (Hm s Hq).
  destruct (m s) as [a s1|e s1]; cbn in Hm; subst s1.
  - apply Hk, Hq.
  - reflexivity.
Qed.
End Frozen.

Lemma frozen_search (E : env) query n : frozen (search_snippets E query n).
Proof.
  unfold search_snippets.
  destruct (ddgs_text E query n); [apply frozen_ret | apply frozen_raise].
Qed.

(** The guard [if MODEL and not quota_exceeded] of the three call sites. *)
Lemma frozen_guard {A} (E : env) (calling : M A) (a : A) :
  frozen (q <- get_quota ;; if MODEL E && negb q then calling else ret a).
Proof.
  intros s Hq. unfold bind, get_quota. rewrite Hq, andb_false_r. reflexivity.
Qed.

Lemma frozen_llm_names E snippets : frozen (llm_names E snippets).
Proof. apply frozen_guard. Qed.

Lemma frozen_llm_contact E prompt : frozen (llm_contact E prompt).
Proof. apply frozen_guard. Qed.

Lemma frozen_llm_score E prompt : frozen (llm_score E prompt).
Proof. apply frozen_guard. Qed.

Create HintDb frozen.

#[local] Hint Resolve frozen_ret frozen_raise frozen_lift frozen_search
  frozen_llm_names frozen_llm_contact frozen_llm_score : frozen.

Ltac frozen_step :=
  repeat first
    [ solve [auto with frozen]
    | match goal with
      | |- frozen (if ?b then _ else _) => destruct b
      | |- frozen (let '(_, _) := ?c in _) => destruct c
      end
    | apply frozen_bind; [|intro] ].

Lemma frozen_scrape (E : env) : frozen (scrape_conference_attendees E).
Proof. unfold scrape_conference_attendees. frozen_step. Qed.

Lemma frozen_enrich_person (E : env) (p : person) : frozen (enrich_person E p).
Proof. unfold enrich_person. cbv zeta. frozen_step. Qed.

Lemma frozen_calculate_score (E : env) (p : person) :
  frozen (calculate_score E p).
Proof. unfold calculate_score. cbv zeta. frozen_step. Qed.

Lemma frozen_enrich_loop (E : env) (todo : list person) :
  forall acc, frozen (enrich_loop E todo acc).
Proof.
  induction todo as [|lead rest IH]; intros acc; cbn [enrich_loop].
  - apply frozen_ret.
  - apply frozen_bind; [apply frozen_enrich_person | intro; apply IH].
Qed.

Lemma frozen_score_loop (E : env) (todo : list person) :
  forall done, frozen (score_loop E todo done).
Proof.
  induction todo as [|lead rest IH]; intros done; cbn [score_loop].
  - apply frozen_ret.
  - apply frozen_bind; [apply frozen_calculate_score | intro; apply IH].
Qed.

Lemma frozen_pipeline (E : env) : frozen (run_biotech_pipeline E).
Proof.
  unfold run_biotech_pipeline, identification, enrichment, ranking.
  pose proof (frozen_scrape E). pose proof (frozen_enrich_loop E).
  pose proof (frozen_score_loop E).
  frozen_step; auto.
Qed.

(** *** The model is called only while the flag is down *)

Section Preserves.
Context {A B : Type}.
Variable P : state -> Prop.

Lemma preserves_ret (a : A) : preserves P (ret a).
Proof. intros s H. exact H. Qed.

Lemma preserves_raise (e : exn) : preserves P (@raise A e).
Proof. intros s H. exact H. Qed.

Lemma preserves_lift (r : result A) : preserves P (lift r).
Proof. destruct r; [apply preserves_ret | apply preserves_raise]. Qed.

Lemma preserves_bind (m : M A) (k : A -> M B) :
  preserves P m -> (forall a, preserves P (k a)) -> preserves P (bind m k).
Proof.
  intros Hm Hk s H. unfold bind. specialize (Hm s H).
  destruct (m s) as [a s1|e s1]; cbn in Hm.
  - apply Hk, Hm.
  - exact Hm.
Qed.
End Preserves.

Lemma preserves_search (P : state -> Prop) (E : env) query n :
  preserves P (search_snippets E query n).
Proof.
  unfold search_snippets.
  destruct (ddgs_text E query n); [apply preserves_ret | apply preserves_raise].
Qed.

Lemma consistent_initial : consistent initial.
Proof. split; [intros _ e [] | exact I]. Qed.

Lemma consistent_call (site : call_site) (prompt : string) (s : state) :
  consistent s ->
  quota_exceeded s = false ->
  consistent {| quota_exceeded := quota_exceeded s;
                trace := LlmCall site prompt :: trace s |}.
Proof.
  intros [Hflag Hcalls] Hq. split; cbn.
  - intros _ e [<-|He]; [reflexivity | apply Hflag; assumption].
  - split; [intros _ e He; apply Hflag; assumption | exact Hcalls].
Qed.

Lemma consistent_set_quota (site : call_site) (s : state) :
  consistent s ->
  consistent {| quota_exceeded := true; trace := QuotaSet site :: trace s |}.
Proof.
  intros [_ Hcalls]. split; cbn.
  - discriminate.
  - split; [discriminate | exact Hcalls].
Qed.

Lemma preserves_handle (site : call_site) (msg : string) :
  preserves consistent (handle_llm_error site msg).
Proof.
  unfold handle_llm_error.
  destruct (contains "429" msg || contains "quota" (lower msg)).
  - intros s H. apply consistent_set_quota, H.
  - apply preserves_ret.
Qed.

(** The guard of the three call sites, followed by the call. *)
Lemma preserves_guard {A} (E : env) site prompt (k : llm_reply -> M A) (a : A) :
  (forall r, preserves consistent (k r)) ->
  preserves consistent
    (q <- get_quota ;;
     if MODEL E && negb q then r <- call_model E site prompt ;; k r else ret a).
Proof.
  intros Hk s H. unfold bind at 1. unfold get_quota.
  destruct (MODEL E); cbn [andb]; [|exact H].
  destruct (quota_exceeded s) eqn:Hq; cbn [negb]; [exact H|].
  unfold bind, call_model. apply Hk. apply consistent_call; assumption.
Qed.

Lemma preserves_llm_names E snippets :
  preserves consistent (llm_names E snippets).
Proof.
  apply preserves_guard. intros [msg|text].
  - apply preserves_bind; [apply preserves_handle | intro; apply preserves_ret].
  - destruct (json_loads E (unfence text)).
    + apply preserves_bind; [apply preserves_handle | intro; apply preserves_ret].
    + apply preserves_ret.
Qed.

Lemma preserves_llm_contact E prompt :
  preserves consistent (llm_contact E prompt).
Proof.
  apply preserves_guard. intros [msg|text].
  - apply preserves_bind; [apply preserves_handle | intro; apply preserves_ret].
  - destruct (json_loads E (unfence text)) as [msg|data].
    + apply preserves_bind; [apply preserves_handle | intro; apply preserves_ret].
    + destruct (read_contact data).
      * apply preserves_ret.
      * apply preserves_bind; [apply preserves_handle | intro; apply preserves_ret].
Qed.

Lemma preserves_llm_score E prompt :
  preserves consistent (llm_score E prompt).
Proof.
  apply preserves_guard. intros [msg|text].
  - apply preserves_bind; [apply preserves_handle | intro; apply preserves_ret].
  - destruct (read_score text); [|apply preserves_ret].
    apply preserves_bind; [apply preserves_handle | intro; apply preserves_ret].
Qed.

Create HintDb preserves.

#[local] Hint Resolve preserves_ret preserves_raise preserves_lift
  preserves_search preserves_llm_names preserves_llm_contact
  preserves_llm_score : preserves.

Ltac preserves_step :=
  repeat first
    [ solve [auto with preserves]
    | match goal with
      | |- preserves _ (if ?b then _ else _) => destruct b
      | |- preserves _ (let '(_, _) := ?c in _) => destruct c
      end
    | apply preserves_bind; [|intro] ].

Lemma preserves_scrape (E : env) :
  preserves consistent (scrape_conference_attendees E).
Proof. unfold scrape_conference_attendees. preserves_step. Qed.

Lemma preserves_enrich_person (E : env) (p : person) :
  preserves consistent (enrich_person E p).
Proof. unfold enrich_person. cbv zeta. preserves_step. Qed.

Lemma preserves_calculate_score (E : env) (p : person) :
  preserves consistent (calculate_score E p).
Proof. unfold calculate_score. cbv zeta. preserves_step. Qed.

Lemma preserves_enrich_loop (E : env) (todo : list person) :
  forall acc, preserves consistent (enrich_loop E todo acc).
Proof.
  induction todo as [|lead rest IH]; intros acc; cbn [enrich_loop].
  - apply preserves_ret.
  - apply preserves_bind; [apply preserves_enrich_person | intro; apply IH].
Qed.

Lemma preserves_score_loop (E : env) (todo : list person) :
  forall done, preserves consistent (score_loop E todo done).
Proof.
  induction todo as [|lead rest IH]; intros done; cbn [score_loop].
  - apply preserves_ret.
  - apply preserves_bind; [apply preserves_calculate_score | intro; apply IH].
Qed.

Lemma preserves_pipeline (E : env) :
  preserves consistent (run_biotech_pipeline E).
Proof.
  unfold run_biotech_pipeline, identification, enrichment, ranking.
  pose proof (preserves_scrape E). pose proof (preserves_enrich_loop E).
  pose proof (preserves_score_loop E).
  preserves_step; auto.
Qed.

(** From the trace to the chronological reading. *)
Lemma calls_first_newer (newer older : list event) (site : call_site) :
  calls_first (newer ++ QuotaSet site :: older) ->
  forall e, In e newer -> is_call e = false.
Proof.
  induction newer as [|e0 newer IH]; intros H e He; [destruct He|].
  cbn in H. destruct H as [Hcall Hrest]. destruct He as [<-|He].
  - destruct (is_call e0) eqn:Hc; [|reflexivity].
    specialize (Hcall eq_refl (QuotaSet site)).
    rewrite in_app_iff in Hcall. cbn in Hcall.
    discriminate Hcall. right. left. reflexivity.
  - apply IH; assumption.
Qed.

Lemma consistent_silent (s : state) :
  consistent s -> silent_after_quota (history s).
Proof.
  intros [_ Hcalls] before after site Heq e He.
  unfold history in Heq. apply (f_equal (@rev event)) in Heq.
  rewrite rev_involutive, rev_app_distr in Heq. cbn in Heq.
  rewrite <- app_assoc in Heq. cbn in Heq. rewrite Heq in Hcalls.
  apply (calls_first_newer _ _ _ Hcalls). rewrite <- in_rev. exact He.
Qed.

Lemma consistent_flag (s : state) (site : call_site) :
  consistent s -> In (QuotaSet site) (history s) -> quota_exceeded s = true.
Proof.
  intros [Hflag _] Hin. unfold history in Hin. rewrite <- in_rev in Hin.
  destruct (quota_exceeded s); [reflexivity|].
  discriminate (Hflag eq_refl _ Hin).
Qed.

(** An error whose text carries the signal sets the flag. *)
Lemma handle_sets_flag (site : call_site) (msg : string) (s : state) :
  contains "429" msg || contains "quota" (lower msg) = true ->
  quota_exceeded (final (handle_llm_error site msg s)) = true.
Proof. unfold handle_llm_error. intros ->. reflexivity. Qed.

(** C3. Nothing in the program puts the flag down again, and the three
    call sites test it before they call the model. Entered with the flag
    set, name extraction, enrichment, scoring and the whole pipeline leave
    the state as it is: the flag stays set and no call is logged, whether
    they return or raise. Along a run, started anywhere the log agrees
    with the flag (as at the start of the process), no call of the model
    is logged after a setting of the flag, and the flag is set at the end
    if it was ever set. The flag is set when the text of a caught error
    contains [429] or, in lower case, [quota]. *)
Theorem quota_flag_is_final (E : env) :
  (forall s, quota_exceeded s = true ->
     final (scrape_conference_attendees E s) = s
     /\ (forall p, final (enrich_person E p s) = s)
     /\ (forall p, final (calculate_score E p s) = s)
     /\ final (run_biotech_pipeline E s) = s)
  /\ (forall s, consistent s ->
        let s' := final (run_biotech_pipeline E s) in
        silent_after_quota (history s')
        /\ forall site, In (QuotaSet site) (history s') -> quota_exceeded s' = true)
  /\ (forall s, consistent s ->
        silent_after_quota (history (final (scrape_conference_attendees E s)))
        /\ (forall p, silent_after_quota (history (final (enrich_person E p s))))
        /\ (forall p, silent_after_quota (history (final (calculate_score E p s)))))
  /\ consistent initial
  /\ (forall site msg s,
        contains "429" msg || contains "quota" (lower msg) = true ->
        quota_exceeded (final (handle_llm_error site msg s)) = true).
Proof.
  split; [|split; [|split; [|split]]].
  - intros s Hq. split; [apply frozen_scrape, Hq|].
    split; [intros p; apply frozen_enrich_person, Hq|].
    split; [intros p; apply frozen_calculate_score, Hq|].
    apply frozen_pipeline, Hq.
  - intros s Hs. cbv zeta.
    pose proof (preserves_pipeline E s Hs) as Hc. split.
    + apply consistent_silent, Hc.
    + intros site. apply consistent_flag, Hc.
  - intros s Hs. split; [|split].
    + apply consistent_silent, preserves_scrape, Hs.
    + intros p. apply consistent_silent, preserves_enrich_person, Hs.
    + intros p. apply consistent_silent, preserves_calculate_score, Hs.
  - apply consistent_initial.
  - apply handle_sets_flag.
Qed.

Lemma quota_flag_is_final_witness :
  let set := {| quota_exceeded := true; trace := [] |} in
  final (calculate_score Demo.throttled Demo.jane set) = set
  /\ final (run_biotech_pipeline Demo.throttled set) = set
  /\ silent_after_quota
       (history (final (run_biotech_pipeline Demo.throttled initial)))
  /\ quota_exceeded
       (final (handle_llm_error Scoring "Quota exceeded for this model" initial))
     = true.
Proof.
  intros set.
  destruct (quota_flag_is_final Demo.throttled) as (Hset & Hrun & _ & Hinit & Hsig).
  destruct (Hset set eq_refl) as (_ & _ & Hscore & Hpipe).
  split; [apply Hscore|]. split; [exact Hpipe|].
  split; [exact (proj1 (Hrun initial Hinit))|].
  apply Hsig. reflexivity.
Defined.

(** In a world whose model is out of quota from the start, the whole run
    makes one call, the first, and none after the flag is set. *)
Example throttled_run_calls_once :
  map is_call (history (final (run_biotech_pipeline Demo.throttled initial)))
  = [true; false].
Proof. vm_compute. reflexivity. Qed.

(* ================================================================== *)
(** ** The synthesized contact *)
(* ================================================================== *)

(** The model path of the enrichment never raises. *)
Lemma llm_contact_returns (E : env) (prompt : string) (s : state) :
  exists c s', llm_contact E prompt s = Ok c s'.
Proof.
  unfold llm_contact, bind, get_quota.
  destruct (MODEL E && negb (quota_exceeded s)); [|eexists; eexists; reflexivity].
  unfold call_model.
  destruct (generate_content E (List.length (trace s)) prompt) as [msg|text].
  - match goal with |- context [handle_llm_error ?a ?b ?c] =>
      destruct (handle_llm_error_ok a b c) as [s' ->] end.
    eexists; eexists; reflexivity.
  - destruct (json_loads E (unfence text)) as [msg|data].
    + match goal with |- context [handle_llm_error ?a ?b ?c] =>
        destruct (handle_llm_error_ok a b c) as [s' ->] end.
      eexists; eexists; reflexivity.
    + destruct (read_contact data) as [c|e].
      * eexists; eexists; reflexivity.
      * match goal with |- context [handle_llm_error ?a ?b ?c] =>
          destruct (handle_llm_error_ok a b c) as [s' ->] end.
        eexists; eexists; reflexivity.
Qed.

(** Without a model, or with the flag set, nothing is extracted. *)
Lemma llm_contact_unavailable (E : env) (prompt : string) (s : state) :
  MODEL E && negb (quota_exceeded s) = false ->
  llm_contact E prompt s = Ok no_contact s.
Proof. intros H. unfold llm_contact, bind, get_quota. rewrite H. reflexivity. Qed.

(** C6, as the code has it. When the three searches of the enrichment
    answer, the enrichment extracts neither a profile nor an email, and
    the name is a string with at least one token, the two fields are
    what [synth_email] and [synth_linkedin] compute from the name and
    the company alone: the email is the first token, a dot, the last
    token (both in lower case), [@], the company without spaces in lower
    case, [.com]; the profile is the name without spaces in lower case
    under [https://linkedin.com/in/]; both are non-empty. Jane Doe at
    Acme Inc gets [jane.doe@acmeinc.com] and a profile that contains
    [janedoe]. *)
Theorem synthesized_contact (E : env) (p : person) (s s1 : state)
  (nm first : string) (rest ls es hs : list string) (li em loc : pyval) :
  name p = VStr nm ->
  split_ws nm = first :: rest ->
  ddgs_text E (who E p +++ " linkedin") 5 = Some ls ->
  ddgs_text E (who E p +++ " email") 5 = Some es ->
  ddgs_text E (headquarters_query p) 3 = Some hs ->
  llm_contact E (enrich_prompt E (name p) (company p) ls es hs) s
  = Ok (li, em, loc) s1 ->
  truthy li = false ->
  truthy em = false ->
  let url := "https://linkedin.com/in/" +++ lower (remove_spaces nm) in
  let address := lower first +++ "." +++ lower (last rest first) +++ "@"
                 +++ lower (remove_spaces (company p)) +++ ".com" in
  (exists e,
     enrich_person E p s = Ok e s1
     /\ linkedin e = Some (VStr url) /\ email e = Some (VStr address))
  /\ url <> EmptyString /\ address <> EmptyString
  /\ synth_email (VStr "Jane Doe") "Acme Inc" = Ret (VStr "jane.doe@acmeinc.com")
  /\ synth_linkedin (VStr "Jane Doe") = Ret (VStr "https://linkedin.com/in/janedoe")
  /\ contains "janedoe" "https://linkedin.com/in/janedoe" = true
  /\ synth_email (name p) (company p) = Ret (VStr address)
  /\ synth_linkedin (name p) = Ret (VStr url).
Proof.
  intros Hnm Htok Hls Hes Hhs Hllm Hli Hem. cbv zeta.
  split; [|split; [discriminate|split; [|split; [reflexivity|split;
    [reflexivity|split; [reflexivity|split;
      [unfold synth_email; rewrite Hnm, Htok; reflexivity
      |unfold synth_linkedin; rewrite Hnm; reflexivity]]]]]]].
  - unfold enrich_person, search_snippets, bind. cbv zeta.
    unfold who, headquarters_query in *.
    rewrite Hls. unfold ret at 1. cbn beta iota.
    rewrite Hes. unfold ret at 1. cbn beta iota.
    rewrite Hhs. unfold ret at 1. cbn beta iota.
    rewrite Hllm. unfold py_or. rewrite Hli, Hem.
    unfold synth_linkedin, synth_email. rewrite Hnm, Htok.
    eexists. split; [reflexivity|]. split; reflexivity.
  - repeat apply append_nonempty. discriminate.
Qed.

Lemma synthesized_contact_witness :
  exists e,
    enrich_person Demo.offline Demo.jane initial = Ok e initial
    /\ linkedin e = Some (VStr "https://linkedin.com/in/janedoe")
    /\ email e = Some (VStr "jane.doe@acmeinc.com").
Proof.
  exact (proj1 (synthesized_contact Demo.offline Demo.jane initial initial
                  "Jane Doe" "Jane" ["Doe"]
                  ["Acme Bio raised a Series B round."; "Talk by Mary Major."]
                  ["Acme Bio raised a Series B round."; "Talk by Mary Major."]
                  ["Acme Bio raised a Series B round."; "Talk by Mary Major."]
                  VNone VNone VNone
                  eq_refl eq_refl eq_refl eq_refl eq_refl eq_refl eq_refl eq_refl)).
Defined.

(** C6, as the specification states it, fails: for a name without a
    token, here one space, [name.split()[0]] raises [IndexError] and the
    enrichment produces no email at all. *)
Lemma blank_name_gets_no_email :
  synth_email (name Demo.blank) (company Demo.blank) = Raise IndexError
  /\ enrich_person Demo.offline Demo.blank initial = Exn IndexError initial
  /\ ~ (exists e s',
          enrich_person Demo.offline Demo.blank initial = Ok e s'
          /\ email e <> None /\ linkedin e <> None).
Proof.
  split; [reflexivity|]. split; [reflexivity|].
  intros (e & s' & H & _). discriminate H.
Qed.

(* ================================================================== *)
(** ** The conference branch *)
(* ================================================================== *)

(** The model path of the name extraction never raises. *)
Lemma llm_names_returns (E : env) (snippets : list string) (s : state) :
  exists names s', llm_names E snippets s = Ok names s'.
Proof.
  unfold llm_names, bind, get_quota.
  destruct (MODEL E && negb (quota_exceeded s)); [|eexists; eexists; reflexivity].
  unfold call_model.
  destruct (generate_content E _ _) as [msg|text].
  - match goal with |- context [handle_llm_error ?a ?b ?c] =>
      destruct (handle_llm_error_ok a b c) as [s' ->] end.
    eexists; eexists; reflexivity.
  - destruct (json_loads E (unfence text)) as [msg|names].
    + match goal with |- context [handle_llm_error ?a ?b ?c] =>
        destruct (handle_llm_error_ok a b c) as [s' ->] end.
      eexists; eexists; reflexivity.
    + eexists; eexists; reflexivity.
Qed.

(** Every lead of the branch is [attendee] of some item. *)
Lemma scrape_attendees (E : env) (s : state) leads s' :
  scrape_conference_attendees E s = Ok leads s' ->
  exists items, leads = map attendee items.
Proof.
  unfold scrape_conference_attendees, search_snippets, bind. intros H.
  destruct (ddgs_text E _ 10) as [snippets|]; [|discriminate].
  unfold ret at 1 in H. cbn beta iota in H.
  destruct (llm_names E snippets s) as [names s1|e s1]; [|discriminate].
  destruct (truthy names).
  - unfold ret at 1 in H. cbn beta iota in H.
    destruct (py_iter names) as [items|e]; [|discriminate].
    injection H as <- _. exists items. reflexivity.
  - destruct (regex_names E names snippets) as [names'|e]; [|discriminate].
    cbn in H. destruct (py_iter names') as [items|e]; [|discriminate].
    injection H as <- _. exists items. reflexivity.
Qed.

(** Without a model, or with the flag set, the names are those of the
    regular expression, at most 20 of them. *)
Lemma scrape_fallback (E : env) (s : state) (snippets : list string) :
  MODEL E && negb (quota_exceeded s) = false ->
  ddgs_text E "SOT toxicology conference speakers 2024" 10 = Some snippets ->
  scrape_conference_attendees E s
  = Ok (map attendee (map VStr (fallback_names E snippets))) s.
Proof.
  intros Hoff Hsn.
  unfold scrape_conference_attendees, search_snippets, bind.
  rewrite Hsn. unfold ret at 1. cbn beta iota.
  unfold llm_names, bind, get_quota. rewrite Hoff. reflexivity.
Qed.

Lemma fallback_names_length (E : env) (snippets : list string) :
  (List.length (fallback_names E snippets) <= 20)%nat.
Proof. unfold fallback_names. rewrite length_firstn. lia. Qed.

Lemma match_word_nonempty (s w rest : string) :
  match_word s = Some (w, rest) -> w <> EmptyString.
Proof.
  unfold match_word. destruct s as [|c s]; [discriminate|].
  destruct (is_upper c); [|discriminate].
  destruct (span is_lower s) as [[|c' w'] r]; [discriminate|].
  intros H. injection H as <- _. discriminate.
Qed.

Lemma match_name_nonempty (s m rest : string) :
  match_name s = Some (m, rest) -> m <> EmptyString.
Proof.
  unfold match_name.
  destruct (match_word s) as [[w1 [|sp s1]]|]; try discriminate.
  destruct (Ascii.eqb sp " "); [|discriminate].
  destruct (match_word s1) as [[w2 r]|]; [|discriminate].
  intros H. injection H as <- _.
  apply append_nonempty. discriminate.
Qed.

Lemma findall_names_nonempty (s x : string) :
  In x (findall_names s) -> x <> EmptyString.
Proof.
  unfold findall_names. generalize (String.length s) as fuel.
  intros fuel. revert s.
  induction fuel as [|f IH]; intros s H; [destruct H|].
  cbn [findall_names_fuel] in H. destruct s as [|c s']; [destruct H|].
  destruct (match_name (String c s')) as [[m rest]|] eqn:Hm.
  - destruct H as [<-|H]; [eapply match_name_nonempty, Hm | eapply IH, H].
  - eapply IH, H.
Qed.

Lemma in_firstn {A} (n : nat) (l : list A) (x : A) :
  In x (firstn n l) -> In x l.
Proof.
  rewrite <- (firstn_skipn n l) at 2. intros H. apply in_or_app. left. exact H.
Qed.

Lemma fallback_names_nonempty (E : env) (snippets : list string) (x : string) :
  In x (fallback_names E snippets) -> x <> EmptyString.
Proof.
  unfold fallback_names, list_of_set. intros H.
  apply in_firstn in H. apply sort_by_in in H. apply nodup_In in H.
  apply in_flat_map in H. destruct H as (sn & _ & H).
  eapply findall_names_nonempty, H.
Qed.

(** C7 on the code. The model is asked for up to 20 names, but what it
    returns is not cut: when the model replies with the JSON array of the
    21 names [Speaker A] to [Speaker U], the branch emits 21 leads, one
    more than the 20 the fallback path keeps with [[:20]]. *)
Theorem scrape_model_path_uncapped :
  exists s',
    scrape_conference_attendees (Demo.naming Demo.names21) initial
    = Ok (map attendee (map VStr Demo.names21)) s'
    /\ List.length (map attendee (map VStr Demo.names21)) = 21%nat
    /\ map is_call (history s') = [true].
Proof. eexists. split; [vm_compute; reflexivity|]. split; reflexivity. Qed.

(* ================================================================== *)
(** ** Identification *)
(* ================================================================== *)

Lemma location_of_nonempty (affil : string) : location_of affil <> EmptyString.
Proof.
  unfold location_of. destruct (String.eqb affil EmptyString); [discriminate|].
  destruct (last_two (split_on "," affil)) as [[y z]|]; [|discriminate].
  apply append_nonempty. discriminate.
Qed.

Lemma author_entry_shape (ar : author_rec) (a : author) :
  In a (author_entry ar) -> citation_shape (citation_lead a).
Proof.
  unfold author_entry.
  destruct (LastName ar) as [last|], (ForeName ar) as [fore|];
    try (intros H; destruct H; fail).
  intros [<-|[]]. unfold citation_shape, citation_lead. cbn.
  split; [reflexivity|]. split.
  - eexists. split; [reflexivity|]. apply append_nonempty. discriminate.
  - split; [reflexivity|]. split; [|reflexivity].
    eexists. split; [reflexivity | apply location_of_nonempty].
Qed.

Lemma fetch_paper_details_shape (E : env) (id : string) (pap : paper) :
  fetch_paper_details E id = Ret pap ->
  Forall citation_shape (map citation_lead (authors pap)).
Proof.
  unfold fetch_paper_details.
  destruct (efetch E id) as [[|art records]|]; try discriminate.
  destruct (AuthorList art) as [al|]; [|discriminate].
  intros H. injection H as <-. cbn [authors].
  apply Forall_map, Forall_forall. intros a Ha.
  apply in_flat_map in Ha. destruct Ha as (ar & _ & Ha).
  eapply author_entry_shape, Ha.
Qed.

Lemma citation_loop_shape (E : env) (pmids : list string) :
  forall acc leads,
    citation_loop E pmids acc = Ret leads ->
    Forall citation_shape acc -> Forall citation_shape leads.
Proof.
  induction pmids as [|id rest IH]; intros acc leads H Hacc.
  - injection H as <-. exact Hacc.
  - cbn [citation_loop] in H.
    destruct (fetch_paper_details E id) as [pap|e] eqn:Hf; [|discriminate].
    apply (IH _ _ H). apply Forall_app. split; [exact Hacc|].
    eapply fetch_paper_details_shape, Hf.
Qed.


(** The leads of the stage: those of the papers, then the attendees. *)
Lemma identification_inv (E : env) (s : state) leads s' :
  identification E s = Ok leads s' ->
  exists cites conf,
    leads = cites ++ map (set_has_recent_paper false) conf
    /\ Forall citation_shape cites
    /\ scrape_conference_attendees E s = Ok conf s'.
Proof.
  unfold identification, bind. intros H.
  destruct (search_pubmed E keywords 30) as [pmids|e]; [|discriminate].
  cbn in H.
  destruct (citation_loop E pmids []) as [cites|e] eqn:Hc; [|discriminate].
  cbn in H.
  destruct (scrape_conference_attendees E s) as [conf s1|e s1] eqn:Hs;
    [|discriminate].
  injection H as <- <-. exists cites, conf.
  split; [reflexivity|]. split; [|reflexivity].
  eapply citation_loop_shape; [exact Hc | constructor].
Qed.






(** An affiliation that begins with a comma gives the empty company: the
    test [if author['affiliation']] looks at the whole string, not at its
    first segment. *)
Example leading_comma_company :
  map (fun a => (company (citation_lead a), location (citation_lead a)))
      (author_entry {| LastName := Some "Doe"; ForeName := Some "Jane";
                       AffiliationInfo := Some [Some ", Boston"] |})
  = [(EmptyString, VStr ", Boston")].
Proof. reflexivity. Qed.

(** *** A fetch that fails *)

Lemma citation_loop_app (E : env) (pre post : list string) :
  forall acc,
    citation_loop E (pre ++ post) acc
    = match citation_loop E pre acc with
      | Ret leads => citation_loop E post leads
      | Raise e => Raise e
      end.
Proof.
  induction pre as [|id pre IH]; intros acc; [reflexivity|].
  cbn [app citation_loop].
  destruct (fetch_paper_details E id); [apply IH | reflexivity].
Qed.

Lemma citation_loop_all (E : env) (pmids : list string) :
  (forall id, In id pmids -> exists pap, fetch_paper_details E id = Ret pap) ->
  forall acc,
    citation_loop E pmids acc = Ret (acc ++ flat_map (leads_of E) pmids).
Proof.
  induction pmids as [|id rest IH]; intros Hall acc.
  - cbn. rewrite app_nil_r. reflexivity.
  - cbn [citation_loop flat_map]. unfold leads_of at 1.
    destruct (Hall id (or_introl eq_refl)) as [pap ->].
    rewrite IH; [|intros i Hi; apply Hall; right; exact Hi].
    rewrite app_assoc. reflexivity.
Qed.

(** C8, as the code has it. Nothing catches an exception of the fetch:
    the first identifier whose details cannot be fetched ends the loop
    over the identifiers and the whole stage with that exception, and no
    lead is produced, also not from the identifiers fetched before it or
    listed after it. When every fetch succeeds, the loop yields the leads
    of all identifiers in their order, and the stage returns them,
    followed by the leads of the conference, whenever the conference
    branch returns. *)
Theorem fetch_failure_aborts (E : env) :
  (forall (pre post : list string) (id : string) (e : exn),
     (forall i, In i pre -> exists pap, fetch_paper_details E i = Ret pap) ->
     fetch_paper_details E id = Raise e ->
     (forall acc, citation_loop E (pre ++ id :: post) acc = Raise e)
     /\ (search_pubmed E keywords 30 = Ret (pre ++ id :: post) ->
         forall s, identification E s = Exn e s))
  /\ (forall pmids : list string,
        (forall i, In i pmids -> exists pap, fetch_paper_details E i = Ret pap) ->
        (forall acc,
           citation_loop E pmids acc = Ret (acc ++ flat_map (leads_of E) pmids))
        /\ (search_pubmed E keywords 30 = Ret pmids ->
            forall s conf s',
              scrape_conference_attendees E s = Ok conf s' ->
              identification E s
              = Ok (flat_map (leads_of E) pmids
                    ++ map (set_has_recent_paper false) conf) s')).
Proof.
  split.
  - intros pre post id e Hpre Hid.
    assert (Hloop : forall acc, citation_loop E (pre ++ id :: post) acc = Raise e).
    { intros acc. rewrite citation_loop_app, (citation_loop_all E pre Hpre).
      cbn [citation_loop]. rewrite Hid. reflexivity. }
    split; [exact Hloop|].
    intros Hsearch s. unfold identification, bind.
    rewrite Hsearch. cbn. rewrite Hloop. reflexivity.
  - intros pmids Hall. split; [apply citation_loop_all, Hall|].
    intros Hsearch s conf s' Hconf. unfold identification, bind.
    rewrite Hsearch. cbn [lift]. unfold ret at 1. cbn beta iota.
    rewrite (citation_loop_all E pmids Hall []). cbn [lift app].
    unfold ret at 1. cbn beta iota. rewrite Hconf. reflexivity.
Qed.

Lemma fetch_failure_aborts_witness :
  identification Demo.flaky initial = Exn ExternalError initial
  /\ identification Demo.offline initial
     = Ok (flat_map (leads_of Demo.offline) ["101"]
           ++ map (set_has_recent_paper false)
                  [attendee (VStr "Acme Bio"); attendee (VStr "Mary Major")])
          initial.
Proof.
  destruct (fetch_failure_aborts Demo.flaky) as [Hfail _].
  destruct (fetch_failure_aborts Demo.offline) as [_ Hall].
  split.
  - refine (proj2 (Hfail ["100"] ["102"] "101" ExternalError _ eq_refl)
              eq_refl initial).
    intros i [<-|[]]. eexists. reflexivity.
  - refine (proj2 (Hall ["101"] _) eq_refl initial _ initial eq_refl).
    intros i [<-|[]]. eexists. reflexivity.
Defined.

(** C8, as the specification states it, fails: with three identifiers
    found, the second of which cannot be fetched, the stage raises and
    the leads of the first and the third identifier, which can be
    fetched, are not produced. *)
Lemma one_failed_fetch_loses_all :
  search_pubmed Demo.flaky keywords 30 = Ret ["100"; "101"; "102"]
  /\ (forall id, id = "100" \/ id = "102" ->
        leads_of Demo.flaky id
        = [ citation_lead {| au_name := "Jane Doe";
                             affiliation := "Acme Inc, Boston, MA";
                             au_location := "Boston, MA" |} ])
  /\ fetch_paper_details Demo.flaky "101" = Raise ExternalError
  /\ ~ (exists leads s', identification Demo.flaky initial = Ok leads s').
Proof.
  split; [reflexivity|]. split; [intros id [->| ->]; reflexivity|].
  split; [reflexivity|].
  intros (leads & s' & H). discriminate H.
Qed.

(* ================================================================== *)
(** ** The choice of the model *)
(* ================================================================== *)

Example replace_ex :
  replace "models/" EmptyString "models/gemini-pro" = "gemini-pro"
  /\ replace "aa" "b" "aaa" = "ba"
  /\ encode_body ("Dear Jane Doe," +++ nl +++ "I hope") = "Dear%20Jane%20Doe,%0AI%20hope".
Proof. repeat split. Qed.

Lemma mem_In (x : string) (l : list string) : mem x l = true <-> In x l.
Proof.
  unfold mem. rewrite existsb_exists. split.
  - intros (y & Hy & He). apply String.eqb_eq in He. subst y. exact Hy.
  - intros H. exists x. split; [exact H | apply String.eqb_refl].
Qed.

(** The loop over the preference list stops at the first preferred name
    that is available. *)
Lemma first_preferred_some (prefs available : list string) (m : string) :
  first_preferred prefs available = Some m ->
  exists before after,
    prefs = before ++ m :: after
    /\ In m available
    /\ forall q, In q before -> ~ In q available.
Proof.
  induction prefs as [|pref rest IH]; [discriminate|].
  cbn [first_preferred]. destruct (mem pref available) eqn:Hm.
  - intros H. injection H as <-. exists [], rest.
    split; [reflexivity|]. split; [apply mem_In, Hm | intros q []].
  - intros H. destruct (IH H) as (before & after & -> & Hin & Hnot).
    exists (pref :: before), after. split; [reflexivity|]. split; [exact Hin|].
    intros q [<-|Hq]; [|apply Hnot, Hq].
    intros Hq. apply mem_In in Hq. congruence.
Qed.

Lemma first_preferred_none (prefs available : list string) :
  first_preferred prefs available = None ->
  forall q, In q prefs -> ~ In q available.
Proof.
  induction prefs as [|pref rest IH]; [intros _ q []|].
  cbn [first_preferred]. destruct (mem pref available) eqn:Hm; [discriminate|].
  intros H q [<-|Hq]; [|apply (IH H), Hq].
  intros Hq. apply mem_In in Hq. congruence.
Qed.

(** X1. [MODEL] stays [None] exactly when no listed model supports
    [generateContent] (or the listing raises). Otherwise the model chosen
    is one of the available ones: the first name of the preference list
    that is available, whatever its place in the listing, and the first
    available model only when no preferred name is available. *)
Theorem select_model_choice (ms : list model_info) :
  select_model None = None
  /\ (select_model (Some ms) = None <-> available_models ms = [])
  /\ forall m,
       select_model (Some ms) = Some m ->
       In m (available_models ms)
       /\ ((exists before after,
              preferred_models = before ++ m :: after
              /\ forall q, In q before -> ~ In q (available_models ms))
           \/ ((forall q, In q preferred_models -> ~ In q (available_models ms))
               /\ exists rest, available_models ms = m :: rest)).
Proof.
  split; [reflexivity|]. unfold select_model. cbv zeta.
  destruct (first_preferred preferred_models (available_models ms)) as [pref|] eqn:Hp.
  - destruct (first_preferred_some _ _ _ Hp) as (before & after & Heq & Hin & Hnot).
    split.
    + split; [discriminate|]. intros Hnil. rewrite Hnil in Hin. destruct Hin.
    + intros m H. injection H as <-. split; [exact Hin|].
      left. exists before, after. split; assumption.
  - pose proof (first_preferred_none _ _ Hp) as Hnone.
    destruct (available_models ms) as [|first rest] eqn:Hav.
    + split; [split; reflexivity | discriminate].
    + split; [split; discriminate|].
      intros m H. injection H as <-. split; [left; reflexivity|].
      right. split; [exact Hnone | exists rest; reflexivity].
Qed.

Lemma select_model_choice_witness :
  let ms := [ {| model_name := "models/gemini-1.5-flash";
                 supported_generation_methods := ["generateContent"] |};
              {| model_name := "models/embedding-001";
                 supported_generation_methods := ["embedContent"] |};
              {| model_name := "models/gemini-1.5-pro";
                 supported_generation_methods := ["generateContent"; "countTokens"] |} ] in
  In "gemini-1.5-pro" (available_models ms)
  /\ ((exists before after,
         preferred_models = before ++ "gemini-1.5-pro" :: after
         /\ forall q, In q before -> ~ In q (available_models ms))
      \/ ((forall q, In q preferred_models -> ~ In q (available_models ms))
          /\ exists rest, available_models ms = "gemini-1.5-pro" :: rest)).
Proof.
  intros ms.
  exact (proj2 (proj2 (select_model_choice ms)) "gemini-1.5-pro" eq_refl).
Defined.

(* ================================================================== *)
(** ** The details of a paper *)
(* ================================================================== *)

(** X2. [fetch_paper_details] reads the first record only. It raises
    [IndexError] when there is no record, [KeyError] when the record has
    no author list, and the exception of the client when the fetch
    fails; otherwise it returns the identifier it was given and one entry
    for each author that has both a fore name and a last name, in the
    order of the author list, named [fore name, space, last name];
    authors that lack one of the two are left out. *)
Theorem fetch_paper_details_cases (E : env) (id : string) :
  match fetch_paper_details E id with
  | Raise ExternalError => efetch E id = None
  | Raise IndexError => efetch E id = Some []
  | Raise KeyError =>
      exists art rest, efetch E id = Some (art :: rest) /\ AuthorList art = None
  | Raise _ => False
  | Ret pap =>
      exists art rest al,
        efetch E id = Some (art :: rest) /\ AuthorList art = Some al
        /\ pmid pap = id /\ paper_title pap = ArticleTitle art
        /\ map au_name (authors pap)
           = flat_map (fun a => match ForeName a, LastName a with
                                | Some fore, Some last => [fore +++ " " +++ last]
                                | _, _ => []
                                end) al
        /\ (List.length (authors pap) <= List.length al)%nat
  end.
Proof.
  unfold fetch_paper_details.
  destruct (efetch E id) as [[|art rest]|]; [reflexivity| |reflexivity].
  destruct (AuthorList art) as [al|] eqn:Hal.
  - exists art, rest, al. cbn [authors pmid paper_title].
    split; [reflexivity|]. split; [exact Hal|]. split; [reflexivity|].
    split; [reflexivity|]. clear Hal. split.
    + induction al as [|a al IH]; [reflexivity|].
      cbn [flat_map]. rewrite map_app, IH. f_equal.
      unfold author_entry. destruct (LastName a), (ForeName a); reflexivity.
    + induction al as [|a al IH]; [apply le_n|].
      cbn [flat_map]. rewrite length_app. cbn [List.length].
      unfold author_entry at 1. destruct (LastName a), (ForeName a); cbn; lia.
  - exists art, rest. split; [reflexivity | exact Hal].
Qed.

(* ================================================================== *)
(** ** Company and location of an author *)
(* ================================================================== *)

Lemma split_on_lacks (sep : ascii) (s : string) :
  lacks sep s = true -> split_on sep s = [s].
Proof.
  induction s as [|c s IH]; [reflexivity|].
  unfold lacks in *. cbn. intros H. apply andb_prop in H. destruct H as [Hc Hs].
  apply negb_true_iff in Hc. rewrite Hc, (IH Hs). reflexivity.
Qed.

Lemma split_on_has (sep : ascii) (s : string) :
  lacks sep s = false -> exists a b rest, split_on sep s = a :: b :: rest.
Proof.
  induction s as [|c s IH]; [discriminate|].
  unfold lacks in *. cbn. destruct (Ascii.eqb c sep) eqn:Hc; cbn.
  - intros _. destruct s as [|c' s'].
    + exists EmptyString, EmptyString, []. reflexivity.
    + cbn. destruct (Ascii.eqb c' sep).
      * eexists; eexists; eexists; reflexivity.
      * destruct (split_on sep s'); eexists; eexists; eexists; reflexivity.
  - intros H. destruct (IH H) as (a & b & rest & ->).
    exists (String c a), b, rest. reflexivity.
Qed.

Lemma last_two_some (a b : string) (rest : list string) :
  exists y z, last_two (a :: b :: rest) = Some (y, z).
Proof.
  unfold last_two.
  pose proof (length_rev (a :: b :: rest)) as Hlen.
  destruct (rev (a :: b :: rest)) as [|z [|y l]]; cbn in Hlen; try lia.
  exists y, z. reflexivity.
Qed.

(** The first segment of a split: what stands in front of the first
    separator. *)
Lemma split_on_hd (sep : ascii) (s : string) :
  exists tail,
    s = hd EmptyString (split_on sep s) +++ tail
    /\ (tail = EmptyString \/ exists t, tail = String sep t)
    /\ lacks sep (hd EmptyString (split_on sep s)) = true.
Proof.
  induction s as [|c s IH].
  - exists EmptyString. repeat split. left. reflexivity.
  - cbn [split_on]. destruct (Ascii.eqb c sep) eqn:Hc.
    + apply Ascii.eqb_eq in Hc. subst c. exists (String sep s).
      repeat split. right. exists s. reflexivity.
    + destruct IH as (tail & Heq & Htail & Hl).
      destruct (split_on sep s) as [|h t]; cbn [hd] in *.
      * exists tail. split; [cbn; rewrite Heq at 1; reflexivity|].
        split; [exact Htail|]. unfold lacks. cbn. rewrite Hc. reflexivity.
      * exists tail. split; [cbn; rewrite Heq at 1; reflexivity|].
        split; [exact Htail|]. unfold lacks in *. cbn. rewrite Hc, Hl. reflexivity.
Qed.

(** X3. The location of an author is [Unknown] exactly when the
    affiliation has no comma (an empty affiliation included); with a
    comma it is the last two comma-separated segments, each stripped,
    joined by a comma and a space. *)
Theorem location_unknown_iff (affil : string) :
  (location_of affil = "Unknown" <-> lacks "," affil = true)
  /\ (lacks "," affil = false ->
      exists y z,
        last_two (split_on "," affil) = Some (y, z)
        /\ location_of affil = strip y +++ ", " +++ strip z).
Proof.
  assert (Hcomma : lacks "," affil = false ->
                   exists y z,
                     last_two (split_on "," affil) = Some (y, z)
                     /\ location_of affil = strip y +++ ", " +++ strip z).
  { intros H. destruct (split_on_has _ _ H) as (a & b & rest & Hs).
    destruct (last_two_some a b rest) as (y & z & Hyz).
    exists y, z. rewrite Hs. split; [exact Hyz|].
    unfold location_of. rewrite Hs, Hyz.
    destruct affil; [discriminate H | reflexivity]. }
  split; [|exact Hcomma]. split.
  - intros Hu. destruct (lacks "," affil) eqn:Hl; [reflexivity|].
    destruct (Hcomma eq_refl) as (y & z & _ & Heq). rewrite Heq in Hu.
    apply (f_equal (lacks ",")) in Hu. unfold lacks in Hu.
    rewrite !all_chars_app in Hu. cbn in Hu.
    rewrite andb_false_r in Hu. discriminate Hu.
  - intros Hl. unfold location_of.
    destruct (String.eqb affil EmptyString); [reflexivity|].
    rewrite (split_on_lacks _ _ Hl). reflexivity.
Qed.

Lemma location_unknown_iff_witness :
  location_of "Acme Inc, 1 Main St, Boston , MA" = "Boston, MA"
  /\ location_of "Acme Inc" = "Unknown".
Proof.
  split.
  - destruct (proj2 (location_unknown_iff "Acme Inc, 1 Main St, Boston , MA") eq_refl)
      as (y & z & Hyz & Heq).
    injection Hyz as <- <-. exact Heq.
  - exact (proj2 (proj1 (location_unknown_iff "Acme Inc")) eq_refl).
Defined.

(** X4. The company of a lead from a paper is the text of the
    affiliation in front of its first comma, the whole affiliation when
    it has no comma, and [Unknown] when the affiliation is empty. It
    holds no comma; it is empty exactly when the affiliation begins with
    a comma. *)
Theorem company_first_segment (a : author) :
  (affiliation a = EmptyString -> company (citation_lead a) = "Unknown")
  /\ (affiliation a <> EmptyString ->
      lacks "," (company (citation_lead a)) = true
      /\ (exists tail,
            affiliation a = company (citation_lead a) +++ tail
            /\ (tail = EmptyString \/ exists t, tail = String "," t))
      /\ (company (citation_lead a) = EmptyString
          <-> exists t, affiliation a = String "," t)).
Proof.
  unfold citation_lead. cbn [company]. split.
  - intros ->. reflexivity.
  - intros Hne.
    destruct (String.eqb_spec (affiliation a) EmptyString) as [He|_]; [contradiction|].
    destruct (split_on_hd "," (affiliation a)) as (tail & Heq & Htail & Hl).
    split; [exact Hl|]. split; [exists tail; split; assumption|].
    split.
    + intros Hc. rewrite Hc in Heq. cbn in Heq.
      destruct Htail as [->|[t ->]]; [contradiction | exists t; exact Heq].
    + intros [t Ht]. rewrite Ht. cbn. reflexivity.
Qed.

Lemma company_first_segment_witness :
  let a := {| au_name := "Jane Doe"; affiliation := "Acme Inc, Boston, MA";
              au_location := "Boston, MA" |} in
  lacks "," (company (citation_lead a)) = true
  /\ (exists tail,
        affiliation a = company (citation_lead a) +++ tail
        /\ (tail = EmptyString \/ exists t, tail = String "," t))
  /\ (company (citation_lead a) = EmptyString
      <-> exists t, affiliation a = String "," t).
Proof.
  intros a. apply (proj2 (company_first_segment a)). discriminate.
Defined.

(* ================================================================== *)
(** ** The leads of the identification *)
(* ================================================================== *)

(** X5. The leads of the identification stage are the leads of the
    papers followed by the leads of the conference: no lead of a paper
    comes after a conference lead. *)
Theorem identification_order (E : env) (s : state) leads s' :
  identification E s = Ok leads s' ->
  exists cites conf,
    leads = cites ++ conf
    /\ Forall (fun p => source p = PubMed) cites
    /\ Forall (fun p => source p = Conference) conf.
Proof.
  intros H. apply identification_inv in H.
  destruct H as (cites & conf & -> & Hcites & Hconf).
  exists cites, (map (set_has_recent_paper false) conf).
  split; [reflexivity|]. split.
  - eapply Forall_impl; [|exact Hcites]. intros p (Hsrc & _). exact Hsrc.
  - destruct (scrape_attendees _ _ _ _ Hconf) as (items & ->).
    rewrite map_map. apply Forall_map, Forall_forall. intros nm _. reflexivity.
Qed.

Lemma identification_order_witness :
  exists cites conf,
    [ citation_lead {| au_name := "Jane Doe"; affiliation := "Acme Inc, Boston, MA";
                       au_location := "Boston, MA" |};
      set_has_recent_paper false (attendee (VStr "Acme Bio"));
      set_has_recent_paper false (attendee (VStr "Mary Major")) ]
    = cites ++ conf
    /\ Forall (fun p => source p = PubMed) cites
    /\ Forall (fun p => source p = Conference) conf.
Proof.
  refine (identification_order Demo.offline initial _ initial _).
  vm_compute. reflexivity.
Defined.

(** *** The names of the fallback *)

Lemma match_word_app (s w rest : string) :
  match_word s = Some (w, rest) -> s = w +++ rest.
Proof.
  unfold match_word. destruct s as [|c s]; [discriminate|].
  destruct (is_upper c); [|discriminate].
  pose proof (span_spec is_lower s) as (Heq & _).
  destruct (span is_lower s) as [[|c' w'] r]; [discriminate|].
  intros H. injection H as <- <-. cbn in *. rewrite Heq at 1. reflexivity.
Qed.

Lemma match_name_app (s m rest : string) :
  match_name s = Some (m, rest) -> s = m +++ rest.
Proof.
  unfold match_name.
  destruct (match_word s) as [[w1 [|sp s1]]|] eqn:H1; try discriminate.
  destruct (Ascii.eqb_spec sp " ") as [->|]; [|discriminate].
  destruct (match_word s1) as [[w2 r]|] eqn:H2; [|discriminate].
  intros H. injection H as <- <-.
  apply match_word_app in H1, H2. rewrite H1, H2.
  rewrite !append_assoc. reflexivity.
Qed.

(** Each name found stands in the text it was found in. *)
Lemma findall_names_substring (s x : string) :
  In x (findall_names s) -> contains x s = true.
Proof.
  unfold findall_names. generalize (String.length s) as fuel.
  intros fuel. revert s.
  assert (Hgen : forall s, In x (findall_names_fuel fuel s) ->
                           exists pre post, s = pre +++ x +++ post).
  { induction fuel as [|f IH]; intros s H; [destruct H|].
    cbn [findall_names_fuel] in H. destruct s as [|c s']; [destruct H|].
    destruct (match_name (String c s')) as [[m rest]|] eqn:Hm.
    - apply match_name_app in Hm. destruct H as [<-|H].
      + exists EmptyString, rest. exact Hm.
      + destruct (IH _ H) as (pre & post & ->).
        exists (m +++ pre), post. rewrite Hm, append_assoc. reflexivity.
    - destruct (IH _ H) as (pre & post & ->).
      exists (String c pre), post. reflexivity. }
  intros s H. destruct (Hgen s H) as (pre & post & ->). apply contains_app.
Qed.

Lemma NoDup_firstn {A} (n : nat) (l : list A) : NoDup l -> NoDup (firstn n l).
Proof.
  intros H. rewrite <- (firstn_skipn n l) in H.
  apply NoDup_app_remove_r in H. exact H.
Qed.

Lemma span_stop (p : ascii -> bool) (a b : string) :
  all_chars p a = true -> stops p b = true -> span p (a +++ b) = (a, b).
Proof.
  induction a as [|c a IH]; intros Ha Hb.
  - destruct b as [|x b]; [reflexivity|]. cbn in *.
    apply negb_true_iff in Hb. rewrite Hb. reflexivity.
  - cbn in Ha. apply andb_prop in Ha. destruct Ha as [Hc Ha].
    cbn. rewrite Hc, (IH Ha Hb). reflexivity.
Qed.

Lemma match_word_spec (s w rest : string) :
  match_word s = Some (w, rest)
  <-> word w /\ s = w +++ rest /\ stops is_lower rest = true.
Proof.
  split.
  - unfold match_word. destruct s as [|c s]; [discriminate|].
    destruct (is_upper c) eqn:Hc; [|discriminate].
    pose proof (span_spec is_lower s) as (Heq & Hall & Hstop).
    destruct (span is_lower s) as [[|c' w'] r]; [discriminate|].
    intros H. injection H as <- <-. cbn [fst snd] in *.
    split; [|split; [cbn; rewrite Heq at 1; reflexivity | exact Hstop]].
    exists c, (String c' w'). repeat split; [exact Hc | discriminate | exact Hall].
  - intros ((c & small & -> & Hc & Hne & Hall) & -> & Hstop).
    unfold match_word. cbn [String.append]. rewrite Hc, (span_stop _ _ _ Hall Hstop).
    destruct small; [contradiction | reflexivity].
Qed.

Lemma match_name_spec (s m rest : string) :
  match_name s = Some (m, rest) <-> name_at s m rest.
Proof.
  split.
  - unfold match_name.
    destruct (match_word s) as [[w1 [|sp s1]]|] eqn:H1; try discriminate.
    destruct (Ascii.eqb_spec sp " ") as [->|]; [|discriminate].
    destruct (match_word s1) as [[w2 r]|] eqn:H2; [|discriminate].
    intros H. injection H as <- <-.
    apply match_word_spec in H1, H2.
    destruct H1 as (Hw1 & -> & _). destruct H2 as (Hw2 & -> & Hstop).
    exists w1, w2. split; [exact Hw1|]. split; [exact Hw2|].
    split; [reflexivity|]. split; [rewrite !append_assoc; reflexivity | exact Hstop].
  - intros (w1 & w2 & Hw1 & Hw2 & -> & -> & Hstop).
    unfold match_name.
    assert (H1 : match_word ((w1 +++ " " +++ w2) +++ rest)
                 = Some (w1, String " " (w2 +++ rest))).
    { apply match_word_spec. split; [exact Hw1|].
      split; [rewrite !append_assoc; reflexivity | reflexivity]. }
    rewrite H1. cbn [Ascii.eqb Bool.eqb].
    assert (H2 : match_word (w2 +++ rest) = Some (w2, rest)).
    { apply match_word_spec. split; [exact Hw2|]. split; [reflexivity | exact Hstop]. }
    rewrite H2. reflexivity.
Qed.

Lemma length_append (a b : string) :
  String.length (a +++ b) = (String.length a + String.length b)%nat.
Proof. induction a as [|c a IH]; [reflexivity | cbn; rewrite IH; reflexivity]. Qed.

(** [findall_names] scans the text as [re.findall] does. *)
Lemma findall_names_scan (s : string) : scan s (findall_names s).
Proof.
  unfold findall_names.
  assert (H : forall fuel s, (String.length s <= fuel)%nat ->
                             scan s (findall_names_fuel fuel s)).
  { clear s. induction fuel as [|f IH]; intros s Hlen.
    - destruct s; [constructor | cbn in Hlen; lia].
    - destruct s as [|c s']; [constructor|]. cbn [findall_names_fuel].
      destruct (match_name (String c s')) as [[m rest]|] eqn:Hm.
      + pose proof (match_name_nonempty _ _ _ Hm) as Hne.
        apply match_name_spec in Hm.
        apply scan_match with (rest := rest); [exact Hm|].
        apply IH. destruct Hm as (w1 & w2 & _ & _ & _ & Heq & _).
        rewrite Heq, length_append in Hlen.
        destruct m; [contradiction | cbn in Hlen; lia].
      + apply scan_skip.
        * intros m rest Hn. apply match_name_spec in Hn. congruence.
        * apply IH. cbn in Hlen. lia. }
  apply H, le_n.
Qed.

(** X6. When the model is not called (there is none, or the flag is
    set), the conference branch leaves the state as it is and emits one
    lead for each of the first 20 distinct names that the regular
    expression finds in the snippets: the names are the matches of a scan
    of each snippet from left to right, without repetition, in the order
    of the set, cut after 20. So there are at most 20 leads, with
    pairwise distinct names, each name non-empty and a piece of the text
    of one of the snippets. *)
Theorem scrape_fallback_names (E : env) (s : state) (snippets : list string)
  leads s' :
  MODEL E && negb (quota_exceeded s) = false ->
  ddgs_text E "SOT toxicology conference speakers 2024" 10 = Some snippets ->
  scrape_conference_attendees E s = Ok leads s' ->
  exists names,
    leads = map attendee (map VStr names)
    /\ s' = s
    /\ (List.length leads <= 20)%nat
    /\ NoDup names
    /\ (forall x, In x names ->
          x <> EmptyString
          /\ exists snippet, In snippet snippets /\ contains x snippet = true)
    /\ exists found distinct,
         Forall2 scan snippets found
         /\ NoDup distinct
         /\ (forall x, In x distinct <-> In x (List.concat found))
         /\ names = firstn 20 distinct.
Proof.
  intros Hoff Hsn H. rewrite (scrape_fallback E s snippets Hoff Hsn) in H.
  injection H as <- <-. exists (fallback_names E snippets).
  assert (Hnd : NoDup (list_of_set E (flat_map findall_names snippets))).
  { unfold list_of_set. eapply Permutation_NoDup;
      [apply Permutation_sym, sort_by_perm | apply NoDup_nodup]. }
  split; [reflexivity|]. split; [reflexivity|]. split; [|split; [|split]].
  - rewrite !length_map. apply fallback_names_length.
  - unfold fallback_names. apply NoDup_firstn, Hnd.
  - intros x Hx. split; [eapply fallback_names_nonempty, Hx|].
    unfold fallback_names, list_of_set in Hx.
    apply in_firstn in Hx. apply sort_by_in in Hx. apply nodup_In in Hx.
    apply in_flat_map in Hx. destruct Hx as (sn & Hsn' & Hx).
    exists sn. split; [exact Hsn' | apply findall_names_substring, Hx].
  - exists (map findall_names snippets),
      (list_of_set E (flat_map findall_names snippets)).
    split; [|split; [exact Hnd|split; [|reflexivity]]].
    + clear. induction snippets as [|sn rest IH]; constructor;
        [apply findall_names_scan | exact IH].
    + intros x. unfold list_of_set. rewrite sort_by_in, nodup_In.
      rewrite flat_map_concat_map. reflexivity.
Qed.

Lemma scrape_fallback_names_witness :
  exists names,
    map attendee (map VStr ["Acme Bio"; "Mary Major"]) = map attendee (map VStr names)
    /\ initial = initial
    /\ (List.length (map attendee (map VStr ["Acme Bio"; "Mary Major"])) <= 20)%nat
    /\ NoDup names
    /\ (forall x, In x names ->
          x <> EmptyString
          /\ exists snippet,
               In snippet ["Acme Bio raised a Series B round."; "Talk by Mary Major."]
               /\ contains x snippet = true)
    /\ exists found distinct,
         Forall2 scan ["Acme Bio raised a Series B round."; "Talk by Mary Major."]
                 found
         /\ NoDup distinct
         /\ (forall x, In x distinct <-> In x (List.concat found))
         /\ names = firstn 20 distinct.
Proof.
  refine (scrape_fallback_names Demo.offline initial _ _ initial eq_refl eq_refl _).
  vm_compute. reflexivity.
Defined.

(* ================================================================== *)
(** ** The flag is set once, and the calls are counted *)
(* ================================================================== *)

Lemma settled_initial : settled initial.
Proof. intros e []. Qed.

Lemma final_handle_ret {A} (site : call_site) (msg : string) (x : A) (s : state) :
  final ((handle_llm_error site msg ;;; ret x) s)
  = final (handle_llm_error site msg s).
Proof.
  unfold bind. destruct (handle_llm_error_ok site msg s) as [s' ->]. reflexivity.
Qed.

Lemma settled_handle (site : call_site) (msg : string) (s : state) :
  quota_exceeded s = false -> settled s ->
  settled (final (handle_llm_error site msg s)).
Proof.
  intros Hq Hs. unfold handle_llm_error.
  destruct (contains "429" msg || contains "quota" (lower msg)); [|exact Hs].
  unfold settled in *. cbn. rewrite Hq in Hs.
  exists site, (trace s). split; [reflexivity | exact Hs].
Qed.

Lemma preserves_guard_settled {A} (E : env) site prompt
  (k : llm_reply -> M A) (a : A) :
  (forall r s, quota_exceeded s = false -> settled s -> settled (final (k r s))) ->
  preserves settled
    (q <- get_quota ;;
     if MODEL E && negb q then r <- call_model E site prompt ;; k r else ret a).
Proof.
  intros Hk s H. unfold bind at 1. unfold get_quota.
  destruct (MODEL E); cbn [andb]; [|exact H].
  destruct (quota_exceeded s) eqn:Hq; cbn [negb]; [exact H|].
  unfold bind, call_model. apply Hk; [exact Hq|].
  unfold settled in *. cbn. rewrite Hq in *.
  intros e [<-|He]; [reflexivity | apply H, He].
Qed.

Lemma settled_llm_names E snippets : preserves settled (llm_names E snippets).
Proof.
  apply preserves_guard_settled. intros [msg|text] s Hq Hs.
  - rewrite final_handle_ret. apply settled_handle; assumption.
  - destruct (json_loads E (unfence text)); [|exact Hs].
    rewrite final_handle_ret. apply settled_handle; assumption.
Qed.

Lemma settled_llm_contact E prompt : preserves settled (llm_contact E prompt).
Proof.
  apply preserves_guard_settled. intros [msg|text] s Hq Hs.
  - rewrite final_handle_ret. apply settled_handle; assumption.
  - destruct (json_loads E (unfence text)) as [msg|data].
    + rewrite final_handle_ret. apply settled_handle; assumption.
    + destruct (read_contact data); [exact Hs|].
      rewrite final_handle_ret. apply settled_handle; assumption.
Qed.

Lemma settled_llm_score E prompt : preserves settled (llm_score E prompt).
Proof.
  apply preserves_guard_settled. intros [msg|text] s Hq Hs.
  - rewrite final_handle_ret. apply settled_handle; assumption.
  - destruct (read_score text); [|exact Hs].
    rewrite final_handle_ret. apply settled_handle; assumption.
Qed.

#[local] Hint Resolve settled_llm_names settled_llm_contact settled_llm_score
  : preserves.

Lemma settled_scrape (E : env) :
  preserves settled (scrape_conference_attendees E).
Proof. unfold scrape_conference_attendees. preserves_step. Qed.

Lemma settled_enrich_person (E : env) (p : person) :
  preserves settled (enrich_person E p).
Proof. unfold enrich_person. cbv zeta. preserves_step. Qed.

Lemma settled_calculate_score (E : env) (p : person) :
  preserves settled (calculate_score E p).
Proof. unfold calculate_score. cbv zeta. preserves_step. Qed.

Lemma settled_enrich_loop (E : env) (todo : list person) :
  forall acc, preserves settled (enrich_loop E todo acc).
Proof.
  induction todo as [|lead rest IH]; intros acc; cbn [enrich_loop].
  - apply preserves_ret.
  - apply preserves_bind; [apply settled_enrich_person | intro; apply IH].
Qed.

Lemma settled_score_loop (E : env) (todo : list person) :
  forall done, preserves settled (score_loop E todo done).
Proof.
  induction todo as [|lead rest IH]; intros done; cbn [score_loop].
  - apply preserves_ret.
  - apply preserves_bind; [apply settled_calculate_score | intro; apply IH].
Qed.

Lemma settled_pipeline (E : env) : preserves settled (run_biotech_pipeline E).
Proof.
  unfold run_biotech_pipeline, identification, enrichment, ranking.
  pose proof (settled_scrape E). pose proof (settled_enrich_loop E).
  pose proof (settled_score_loop E).
  preserves_step; auto.
Qed.

Lemma all_calls_no_setting (tr : list event) :
  (forall e, In e tr -> is_call e = true) -> settings tr = 0%nat.
Proof.
  unfold settings. induction tr as [|e tr IH]; intros H; [reflexivity|].
  cbn [filter]. pose proof (H e (or_introl eq_refl)) as He.
  destruct e; [|discriminate He]. cbn. apply IH. intros e' He'. apply H. right. exact He'.
Qed.

(** X7. Along a run the flag is set at most once, and nothing is logged
    after it: the log of a run is a row of calls of the model, ended by
    the one setting of the flag if the flag is set at the end. *)
Theorem flag_set_at_most_once (E : env) (s : state) :
  settled s ->
  let s' := final (run_biotech_pipeline E s) in
  (settings (trace s') <= 1)%nat
  /\ (quota_exceeded s' = false -> settings (trace s') = 0%nat)
  /\ (quota_exceeded s' = true ->
      exists site calls_made,
        history s' = calls_made ++ [QuotaSet site]
        /\ forall e, In e calls_made -> is_call e = true).
Proof.
  intros Hs. cbv zeta. pose proof (settled_pipeline E s Hs) as H.
  unfold settled in H. destruct (quota_exceeded (final _)) eqn:Hq.
  - destruct H as (site & older & Htr & Hcalls).
    split; [|split; [discriminate|]].
    + rewrite Htr. unfold settings. cbn [filter is_quota_set List.length].
      fold (settings older). rewrite (all_calls_no_setting _ Hcalls). apply le_n.
    + intros _. exists site, (rev older). unfold history. rewrite Htr.
      split; [reflexivity|]. intros e He. apply Hcalls, in_rev, He.
  - rewrite (all_calls_no_setting _ H).
    split; [lia|]. split; [reflexivity | discriminate].
Qed.

Lemma flag_set_at_most_once_witness :
  (settings (trace (final (run_biotech_pipeline Demo.throttled initial))) <= 1)%nat.
Proof.
  exact (proj1 (flag_set_at_most_once Demo.throttled initial settled_initial)).
Defined.

(** *** The number of calls *)

Section AddsCalls.
Context {A B : Type}.

Lemma adds_ret (a : A) : adds_calls (ret a) 0.
Proof. intros s. cbn. lia. Qed.

Lemma adds_raise (e : exn) : adds_calls (@raise A e) 0.
Proof. intros s. cbn. lia. Qed.

Lemma adds_lift (r : result A) : adds_calls (lift r) 0.
Proof. destruct r; [apply adds_ret | apply adds_raise]. Qed.

Lemma adds_weaken (m : M A) (n n' : nat) :
  adds_calls m n -> (n <= n')%nat -> adds_calls m n'.
Proof. intros H Hle s. specialize (H s). lia. Qed.

Lemma adds_bind (m : M A) (k : A -> M B) (n n' : nat) :
  adds_calls m n -> (forall a, adds_calls (k a) n') ->
  adds_calls (bind m k) (n + n').
Proof.
  intros Hm Hk s. unfold bind. specialize (Hm s).
  destruct (m s) as [a s1|e s1]; cbn in Hm.
  - specialize (Hk a s1). lia.
  - cbn. lia.
Qed.
End AddsCalls.

Lemma adds_search (E : env) query n : adds_calls (search_snippets E query n) 0.
Proof.
  unfold search_snippets.
  destruct (ddgs_text E query n); [apply adds_ret | apply adds_raise].
Qed.

Lemma adds_handle_ret {A} (site : call_site) (msg : string) (x : A) :
  adds_calls (handle_llm_error site msg ;;; ret x) 0.
Proof.
  intros s. rewrite final_handle_ret. unfold handle_llm_error.
  destruct (contains "429" msg || contains "quota" (lower msg));
    unfold calls, set_quota, ret; cbn [final trace filter is_call]; lia.
Qed.

(** A guarded call site calls the model at most once. *)
Lemma adds_guard {A} (E : env) site prompt (k : llm_reply -> M A) (a : A) :
  (forall r, adds_calls (k r) 0) ->
  adds_calls
    (q <- get_quota ;;
     if MODEL E && negb q then r <- call_model E site prompt ;; k r else ret a) 1.
Proof.
  intros Hk s. unfold bind at 1. unfold get_quota.
  destruct (MODEL E && negb (quota_exceeded s)); [|cbn; lia].
  unfold bind, call_model.
  match goal with |- context [k ?r ?s1] => specialize (Hk r s1) end.
  unfold calls in *. cbn [trace filter is_call List.length] in Hk. lia.
Qed.

Lemma adds_llm_names E snippets : adds_calls (llm_names E snippets) 1.
Proof.
  apply adds_guard. intros [msg|text]; [apply adds_handle_ret|].
  destruct (json_loads E (unfence text)); [apply adds_handle_ret | apply adds_ret].
Qed.

Lemma adds_llm_contact E prompt : adds_calls (llm_contact E prompt) 1.
Proof.
  apply adds_guard. intros [msg|text]; [apply adds_handle_ret|].
  destruct (json_loads E (unfence text)) as [msg|data]; [apply adds_handle_ret|].
  destruct (read_contact data); [apply adds_ret | apply adds_handle_ret].
Qed.

Lemma adds_llm_score E prompt : adds_calls (llm_score E prompt) 1.
Proof.
  apply adds_guard. intros [msg|text]; [apply adds_handle_ret|].
  destruct (read_score text); [apply adds_handle_ret | apply adds_ret].
Qed.

Lemma adds_scrape (E : env) : adds_calls (scrape_conference_attendees E) 1.
Proof.
  unfold scrape_conference_attendees.
  apply (adds_bind _ _ 0 1); [apply adds_search | intros snippets].
  apply (adds_bind _ _ 1 0); [apply adds_llm_names | intros names].
  apply (adds_bind _ _ 0 0);
    [destruct (truthy names); [apply adds_ret | apply adds_lift] | intros names'].
  apply (adds_bind _ _ 0 0); [apply adds_lift | intros items; apply adds_ret].
Qed.

Lemma adds_enrich_person (E : env) (p : person) :
  adds_calls (enrich_person E p) 1.
Proof.
  unfold enrich_person. cbv zeta.
  apply (adds_bind _ _ 0 1); [apply adds_search | intros ls].
  apply (adds_bind _ _ 0 1); [apply adds_search | intros es].
  apply (adds_bind _ _ 0 1); [apply adds_search | intros hs].
  apply (adds_bind _ _ 1 0); [apply adds_llm_contact | intros [[li em] loc]].
  apply (adds_bind _ _ 0 0); [apply adds_lift | intros li'].
  apply (adds_bind _ _ 0 0); [apply adds_lift | intros em'; apply adds_ret].
Qed.

Lemma adds_calculate_score (E : env) (p : person) :
  adds_calls (calculate_score E p) 1.
Proof.
  unfold calculate_score. cbv zeta.
  apply (adds_bind _ _ 0 1); [apply adds_lift | intros loc].
  apply (adds_bind _ _ 0 1); [apply adds_search | intros fs].
  apply (adds_bind _ _ 1 0); [apply adds_llm_score | intros s0; apply adds_ret].
Qed.

Lemma adds_enrich_loop (E : env) (todo : list person) :
  forall acc, adds_calls (enrich_loop E todo acc) (List.length todo).
Proof.
  induction todo as [|lead rest IH]; intros acc; cbn [enrich_loop List.length].
  - apply adds_ret.
  - apply (adds_bind _ _ 1 (List.length rest));
      [apply adds_enrich_person | intros e; apply IH].
Qed.

Lemma adds_score_loop (E : env) (todo : list person) :
  forall done, adds_calls (score_loop E todo done) (List.length todo).
Proof.
  induction todo as [|lead rest IH]; intros done; cbn [score_loop List.length].
  - apply adds_ret.
  - apply (adds_bind _ _ 1 (List.length rest));
      [apply adds_calculate_score | intros z; apply IH].
Qed.

Lemma adds_identification (E : env) : adds_calls (identification E) 1.
Proof.
  unfold identification.
  apply (adds_bind _ _ 0 1); [apply adds_lift | intros pmids].
  apply (adds_bind _ _ 0 1); [apply adds_lift | intros leads].
  apply (adds_bind _ _ 1 0); [apply adds_scrape | intros conf; apply adds_ret].
Qed.

Lemma adds_enrichment (E : env) (leads : list person) :
  adds_calls (enrichment E leads) 30.
Proof.
  unfold enrichment. eapply adds_weaken; [apply adds_enrich_loop|].
  rewrite length_firstn. lia.
Qed.

Lemma enrichment_length (E : env) (leads : list person) s out s' :
  enrichment E leads s = Ok out s' -> (List.length out <= 30)%nat.
Proof.
  unfold enrichment. intros H. apply enrich_loop_inv in H.
  destruct H as (done & -> & HF). cbn [app].
  rewrite <- (Forall2_length HF), length_firstn. lia.
Qed.

Lemma adds_ranking (E : env) (enriched : list person) :
  adds_calls (ranking E enriched) (List.length enriched).
Proof.
  unfold ranking. rewrite <- (Nat.add_0_r (List.length enriched)).
  apply adds_bind; [apply adds_score_loop | intros scored; apply adds_ret].
Qed.

(** X8. A run of the pipeline calls the model at most 61 times: once
    for the names of the conference, once for each of the at most 30
    leads enriched, once for each of the at most 30 leads scored. Each
    of the three functions calls it at most once. *)
Theorem model_calls_bounded (E : env) :
  adds_calls (run_biotech_pipeline E) 61
  /\ adds_calls (scrape_conference_attendees E) 1
  /\ (forall p, adds_calls (enrich_person E p) 1)
  /\ (forall p, adds_calls (calculate_score E p) 1).
Proof.
  split; [|split; [apply adds_scrape | split;
                   [apply adds_enrich_person | apply adds_calculate_score]]].
  intros s. unfold run_biotech_pipeline.
  destruct (GEMINI_API_KEY E); cbn [negb]; [|cbn; lia].
  destruct (EMAIL E); cbn [negb]; [|cbn; lia].
  unfold bind.
  pose proof (adds_identification E s) as H1.
  destruct (identification E s) as [leads s1|e s1]; cbn [final] in *; [|lia].
  pose proof (adds_enrichment E leads s1) as H2.
  destruct (enrichment E leads s1) as [enriched s2|e s2] eqn:He;
    cbn [final] in *; [|lia].
  pose proof (enrichment_length _ _ _ _ _ He) as Hlen.
  pose proof (adds_ranking E enriched s2) as H3.
  destruct (ranking E enriched s2) as [ranked s3|e s3];
    unfold ret; cbn [final] in *; lia.
Qed.

Example throttled_run_count :
  calls (trace (final (run_biotech_pipeline Demo.throttled initial))) = 1%nat
  /\ calls (trace (final (run_biotech_pipeline (Demo.naming ["Ann Lee"]) initial)))
     = 5%nat.
Proof. vm_compute. split; reflexivity. Qed.

(* ================================================================== *)
(** ** What the enrichment does with the reply *)
(* ================================================================== *)

(** X9. A reply that is JSON but not an object (a list, a string, a
    number, [null]) is treated as no contact at all: the
    [AttributeError] of [data.get] is caught, its text carries no quota
    signal, and the flag is left as it was. *)
Theorem non_object_reply_is_no_contact (E : env) (prompt : string) (s : state)
  (text : string) (data : pyval) :
  MODEL E && negb (quota_exceeded s) = true ->
  generate_content E (List.length (trace s)) prompt = Replies text ->
  json_loads E (unfence text) = inr data ->
  (forall kvs, data <> VDict kvs) ->
  llm_contact E prompt s
  = Ok no_contact {| quota_exceeded := quota_exceeded s;
                     trace := LlmCall Enrichment prompt :: trace s |}.
Proof.
  intros Hon Hreply Hjson Hshape.
  unfold llm_contact, bind, get_quota, call_model.
  rewrite Hon, Hreply, Hjson.
  destruct data; try reflexivity.
  exfalso. eapply Hshape. reflexivity.
Qed.

Lemma non_object_reply_is_no_contact_witness :
  llm_contact (Demo.naming ["Ann Lee"]) "prompt" initial
  = Ok no_contact {| quota_exceeded := false;
                     trace := [LlmCall Enrichment "prompt"] |}.
Proof.
  refine (non_object_reply_is_no_contact (Demo.naming ["Ann Lee"]) "prompt"
            initial (Demo.json_array ["Ann Lee"]) (VList [VStr "Ann Lee"])
            eq_refl eq_refl eq_refl _).
  intros kvs. discriminate.
Defined.

(** X10. The test for the quota signal looks at the text of whatever
    exception is caught, so a reply that cannot be parsed sets the flag
    as well when the text of the parse error contains [429] or [quota]:
    the call is logged, the flag is set, and the names or the contact
    are taken as missing. *)
Theorem parse_error_can_set_flag (E : env) (s : state) (text msg : string) :
  MODEL E && negb (quota_exceeded s) = true ->
  json_loads E (unfence text) = inl msg ->
  contains "429" msg || contains "quota" (lower msg) = true ->
  (forall prompt,
     generate_content E (List.length (trace s)) prompt = Replies text ->
     llm_contact E prompt s
     = Ok no_contact
          {| quota_exceeded := true;
             trace := QuotaSet Enrichment :: LlmCall Enrichment prompt :: trace s |})
  /\ (forall snippets,
        generate_content E (List.length (trace s)) (names_prompt snippets)
        = Replies text ->
        llm_names E snippets s
        = Ok (VList [])
             {| quota_exceeded := true;
                trace := QuotaSet NameExtraction
                         :: LlmCall NameExtraction (names_prompt snippets)
                         :: trace s |}).
Proof.
  intros Hon Hjson Hsig. split.
  - intros prompt Hreply.
    unfold llm_contact, bind, get_quota, call_model, handle_llm_error.
    rewrite Hon, Hreply, Hjson, Hsig. reflexivity.
  - intros snippets Hreply.
    unfold llm_names, bind, get_quota, call_model, handle_llm_error.
    rewrite Hon, Hreply, Hjson, Hsig. reflexivity.
Qed.

Lemma parse_error_can_set_flag_witness :
  llm_contact Demo.garbled "prompt" initial
  = Ok no_contact
       {| quota_exceeded := true;
          trace := [QuotaSet Enrichment; LlmCall Enrichment "prompt"] |}.
Proof.
  exact (proj1 (parse_error_can_set_flag Demo.garbled initial
                  "I could not find any names."
                  "Expecting ',' delimiter: line 1 column 429 (char 428)"
                  eq_refl eq_refl eq_refl) "prompt" eq_refl).
Defined.

Lemma py_or_linkedin_returns (li nm : pyval) :
  (exists v, py_or li (synth_linkedin nm) = Ret v)
  <-> (truthy li = true \/ exists x, nm = VStr x).
Proof.
  unfold py_or, synth_linkedin. destruct (truthy li).
  - split; [intros _; left; reflexivity | intros _; eexists; reflexivity].
  - split.
    + intros [v H]. right. destruct nm; try discriminate H. eexists; reflexivity.
    + intros [H|[x ->]]; [discriminate H | eexists; reflexivity].
Qed.

Lemma py_or_email_returns (em nm : pyval) (co : string) :
  (exists v, py_or em (synth_email nm co) = Ret v)
  <-> (truthy em = true \/ exists x, nm = VStr x /\ split_ws x <> []).
Proof.
  unfold py_or, synth_email. destruct (truthy em).
  - split; [intros _; left; reflexivity | intros _; eexists; reflexivity].
  - split.
    + intros [v H]. right. destruct nm as [| | | |x| |]; try discriminate H.
      exists x. split; [reflexivity|].
      destruct (split_ws x); [discriminate H | discriminate].
    + intros [H|(x & -> & Hx)]; [discriminate H|].
      destruct (split_ws x); [contradiction | eexists; reflexivity].
Qed.

(** [enrich_person] behind the searches and the model path. *)
Lemma enrich_person_after (E : env) (p : person) (s s1 : state)
  (ls es hs : list string) (li em loc : pyval) :
  ddgs_text E (who E p +++ " linkedin") 5 = Some ls ->
  ddgs_text E (who E p +++ " email") 5 = Some es ->
  ddgs_text E (headquarters_query p) 3 = Some hs ->
  llm_contact E (enrich_prompt E (name p) (company p) ls es hs) s
  = Ok (li, em, loc) s1 ->
  enrich_person E p s
  = match py_or li (synth_linkedin (name p)) with
    | Raise e => Exn e s1
    | Ret li' =>
        match py_or em (synth_email (name p) (company p)) with
        | Raise e => Exn e s1
        | Ret em' =>
            Ok (set_contact li' em' (if truthy loc then loc else location p) p) s1
        end
    end.
Proof.
  intros Hls Hes Hhs Hllm.
  unfold enrich_person, search_snippets, bind. cbv zeta.
  unfold who, headquarters_query in *.
  rewrite Hls. unfold ret at 1. cbn beta iota.
  rewrite Hes. unfold ret at 1. cbn beta iota.
  rewrite Hhs. unfold ret at 1. cbn beta iota.
  rewrite Hllm.
  destruct (py_or li (synth_linkedin (name p))); [|reflexivity].
  destruct (py_or em (synth_email (name p) (company p))); reflexivity.
Qed.

(** X11. With the three searches answered and the model path ended,
    [enrich_person] returns exactly when each contact field is either
    extracted or can be synthesized: the profile needs the name to be a
    string, the email needs it to have a token. When it returns, an
    extracted profile or email is stored as it is, the location is
    replaced only by an extracted location that is not empty, and the
    publication flag and the score are untouched. *)
Theorem enrich_person_returns_iff (E : env) (p : person) (s s1 : state)
  (ls es hs : list string) (li em loc : pyval) :
  ddgs_text E (who E p +++ " linkedin") 5 = Some ls ->
  ddgs_text E (who E p +++ " email") 5 = Some es ->
  ddgs_text E (headquarters_query p) 3 = Some hs ->
  llm_contact E (enrich_prompt E (name p) (company p) ls es hs) s
  = Ok (li, em, loc) s1 ->
  ((exists e s', enrich_person E p s = Ok e s')
   <-> (truthy li = true \/ exists nm, name p = VStr nm)
       /\ (truthy em = true
           \/ exists nm, name p = VStr nm /\ split_ws nm <> []))
  /\ forall e s',
       enrich_person E p s = Ok e s' ->
       s' = s1
       /\ location e = (if truthy loc then loc else location p)
       /\ (truthy li = true -> linkedin e = Some li)
       /\ (truthy em = true -> email e = Some em)
       /\ has_recent_paper e = has_recent_paper p
       /\ score e = score p.
Proof.
  intros Hls Hes Hhs Hllm.
  rewrite (enrich_person_after E p s s1 ls es hs li em loc Hls Hes Hhs Hllm).
  rewrite <- py_or_linkedin_returns,
          <- (py_or_email_returns em (name p) (company p)).
  destruct (py_or li (synth_linkedin (name p))) as [li'|x] eqn:Hl.
  - destruct (py_or em (synth_email (name p) (company p))) as [em'|y] eqn:He.
    + split.
      * split; [intros _; split; eexists; reflexivity
               | intros _; eexists; eexists; reflexivity].
      * intros e s' H. injection H as <- <-. cbn.
        split; [reflexivity|]. split; [reflexivity|].
        unfold py_or in Hl, He.
        split; [intros Ht; rewrite Ht in Hl; congruence|].
        split; [intros Ht; rewrite Ht in He; congruence|].
        split; reflexivity.
    + split; [|intros e s' H; discriminate H].
      split; [intros (e & s' & H); discriminate H
             | intros [_ [v Hv]]; discriminate Hv].
  - split; [|intros e s' H; discriminate H].
    split; [intros (e & s' & H); discriminate H
           | intros [[v Hv] _]; discriminate Hv].
Qed.

Lemma enrich_person_returns_iff_witness :
  exists e s', enrich_person Demo.offline Demo.jane initial = Ok e s'.
Proof.
  refine (proj2 (proj1 (enrich_person_returns_iff Demo.offline Demo.jane
                          initial initial
                          ["Acme Bio raised a Series B round."; "Talk by Mary Major."]
                          ["Acme Bio raised a Series B round."; "Talk by Mary Major."]
                          ["Acme Bio raised a Series B round."; "Talk by Mary Major."]
                          VNone VNone VNone eq_refl eq_refl eq_refl eq_refl)) _).
  split; right; exists "Jane Doe"; [reflexivity|].
  split; [reflexivity | discriminate].
Defined.

(* ================================================================== *)
(** ** A web search that fails *)
(* ================================================================== *)

(** X12. Nothing catches an exception of the web search. Each of the
    three functions searches before it calls the model, so a search that
    fails ends the function with that exception before any call: the
    flag and the log are as they were. *)
Theorem search_failure_aborts (E : env) (s : state) :
  (ddgs_text E "SOT toxicology conference speakers 2024" 10 = None ->
   scrape_conference_attendees E s = Exn ExternalError s)
  /\ (forall p,
        ddgs_text E (who E p +++ " linkedin") 5 = None
        \/ ddgs_text E (who E p +++ " email") 5 = None
        \/ ddgs_text E (headquarters_query p) 3 = None ->
        enrich_person E p s = Exn ExternalError s)
  /\ (forall p loc,
        location p = VStr loc ->
        ddgs_text E (funding_query p) 5 = None ->
        calculate_score E p s = Exn ExternalError s).
Proof.
  split; [|split].
  - intros H. unfold scrape_conference_attendees, search_snippets, bind.
    rewrite H. reflexivity.
  - intros p H. unfold enrich_person, search_snippets, bind. cbv zeta.
    unfold who, headquarters_query in H.
    destruct (ddgs_text E _ 5) as [ls|]; [|reflexivity]. unfold ret at 1.
    cbn beta iota.
    destruct (ddgs_text E _ 5) as [es|]; [|reflexivity]. unfold ret at 1.
    cbn beta iota.
    destruct (ddgs_text E _ 3) as [hs|]; [|reflexivity].
    destruct H as [H|[H|H]]; discriminate H.
  - intros p loc Hloc H.
    unfold calculate_score, lower_location, search_snippets, bind, lift.
    rewrite Hloc. cbn beta iota. unfold ret at 1. cbn beta iota.
    fold (funding_query p). rewrite H. reflexivity.
Qed.

Lemma search_failure_aborts_witness :
  scrape_conference_attendees Demo.disconnected initial = Exn ExternalError initial
  /\ enrich_person Demo.disconnected Demo.jane initial = Exn ExternalError initial
  /\ calculate_score Demo.disconnected Demo.jane initial = Exn ExternalError initial.
Proof.
  destruct (search_failure_aborts Demo.disconnected initial) as (H1 & H2 & H3).
  split; [exact (H1 eq_refl)|].
  split; [exact (H2 Demo.jane (or_introl eq_refl))|].
  exact (H3 Demo.jane "Boston, MA" eq_refl eq_refl).
Defined.

(* ================================================================== *)
(** ** The rules on the leads of the pipeline *)
(* ================================================================== *)

Lemma enrich_person_flag (E : env) (p e : person) s s' :
  enrich_person E p s = Ok e s' ->
  has_recent_paper e = has_recent_paper p /\ score e = score p.
Proof.
  intros H. unfold enrich_person, bind in H.
  repeat match type of H with
         | match ?m with Ok _ _ => _ | Exn _ _ => _ end = _ =>
             destruct m as [? ?|? ?]; [|discriminate]
         | (let '(_, _) := ?c in _) _ = _ => destruct c
         end.
  injection H as <- _. split; reflexivity.
Qed.

Lemma Forall2_Forall {A B} (R : A -> B -> Prop) (P : A -> Prop) (Q : B -> Prop)
  (l : list A) (l' : list B) :
  (forall a b, R a b -> P a -> Q b) ->
  Forall2 R l l' -> Forall P l -> Forall Q l'.
Proof.
  intros H HF. induction HF as [|a b l l' Hab _ IH]; intros HP; [constructor|].
  inversion HP; subst. constructor; [eapply H; eassumption | apply IH; assumption].
Qed.

Lemma Forall2_right {A B} (R : A -> B -> Prop) (Q : B -> Prop)
  (l : list A) (l' : list B) :
  (forall a b, R a b -> Q b) -> Forall2 R l l' -> Forall Q l'.
Proof.
  intros H HF. induction HF; constructor; [eapply H; eassumption | assumption].
Qed.

Lemma Forall_firstn {A} (P : A -> Prop) (n : nat) (l : list A) :
  Forall P l -> Forall P (firstn n l).
Proof.
  rewrite !Forall_forall. intros H x Hx. apply H. eapply in_firstn, Hx.
Qed.

(** The leads of the identification, as far as the rules look at them. *)
Lemma identification_kinds (E : env) (s : state) leads s' :
  identification E s = Ok leads s' ->
  Forall (fun p =>
            (title p = "Researcher" /\ source p = PubMed
             /\ has_recent_paper p = Some true)
            \/ (title p = "Speaker" /\ source p = Conference
                /\ has_recent_paper p = Some false))
         leads.
Proof.
  intros H. apply identification_inv in H.
  destruct H as (cites & conf & -> & Hcites & Hconf).
  apply Forall_app. split.
  - eapply Forall_impl; [|exact Hcites].
    intros p (Hsrc & _ & Htitle & _ & Hrec). left. repeat split; assumption.
  - destruct (scrape_attendees _ _ _ _ Hconf) as (items & ->).
    rewrite map_map. apply Forall_map, Forall_forall. intros nm _.
    right. repeat split.
Qed.

(** X13. In the pipeline the title of a lead is [Researcher] or
    [Speaker], and neither contains a word of the title rule: the bonus
    of 30 never fires. The rules give a lead of a paper between 55 and
    85 and a lead of the conference between 15 and 45, whatever the
    location and the funding snippets are. *)
Theorem title_bonus_never_fires (E : env) (s s1 s2 : state)
  (leads enriched : list person) :
  identification E s = Ok leads s1 ->
  enrichment E leads s1 = Ok enriched s2 ->
  Forall (fun p =>
            title_hit (lower (title p)) = false
            /\ forall loc fs,
                 let total :=
                   heuristic_total (lower (title p)) loc fs (recent_paper p) in
                 (source p = PubMed -> (55 <= total <= 85)%Z)
                 /\ (source p = Conference -> (15 <= total <= 45)%Z))
         enriched.
Proof.
  intros Hid Hen. apply identification_kinds in Hid.
  unfold enrichment in Hen. apply enrich_loop_inv in Hen.
  destruct Hen as (done & -> & HF). cbn [app].
  eapply Forall2_Forall; [|exact HF | apply Forall_firstn, Hid].
  intros a b (sa & sb & Hb & _ & Htitle & _ & Hsrc & _) Ha.
  apply enrich_person_flag in Hb. destruct Hb as [Hrec _].
  unfold recent_paper, heuristic_total. rewrite Htitle, Hsrc, Hrec.
  destruct Ha as [(-> & -> & ->)|(-> & -> & ->)];
    (split; [reflexivity|]); intros loc fs; cbv zeta;
    pose proof (bonus_range (funding_hit fs) 20);
    pose proof (bonus_range (hub_hit loc) 10);
    change (title_hit (lower "Researcher")) with false;
    change (title_hit (lower "Speaker")) with false;
    cbn [bonus]; split; intros Hs; try discriminate Hs; lia.
Qed.

Lemma title_bonus_never_fires_witness :
  let jane := citation_lead {| au_name := "Jane Doe";
                               affiliation := "Acme Inc, Boston, MA";
                               au_location := "Boston, MA" |} in
  let acme := set_has_recent_paper false (attendee (VStr "Acme Bio")) in
  let mary := set_has_recent_paper false (attendee (VStr "Mary Major")) in
  Forall (fun p => title_hit (lower (title p)) = false)
    [ set_contact (VStr "https://linkedin.com/in/janedoe")
                  (VStr "jane.doe@acmeinc.com") (VStr "Boston, MA") jane;
      set_contact (VStr "https://linkedin.com/in/acmebio")
                  (VStr "acme.bio@unknown.com") (VStr "Unknown") acme;
      set_contact (VStr "https://linkedin.com/in/marymajor")
                  (VStr "mary.major@unknown.com") (VStr "Unknown") mary ].
Proof.
  intros jane acme mary.
  eapply Forall_impl;
    [|refine (title_bonus_never_fires Demo.offline initial initial initial
                [jane; acme; mary] _ _ _)].
  - intros p [H _]. exact H.
  - vm_compute. reflexivity.
  - vm_compute. reflexivity.
Defined.

(* ================================================================== *)
(** ** The filters of the dashboard *)
(* ================================================================== *)

Section Sublist.
Context {A : Type}.

Lemma sublist_refl (l : list A) : sublist l l.
Proof. induction l; constructor; assumption. Qed.

Lemma sublist_filter (f : A -> bool) (l : list A) : sublist (filter f l) l.
Proof.
  induction l as [|x l IH]; [constructor|].
  cbn. destruct (f x); constructor; assumption.
Qed.

Lemma sublist_trans (l1 l2 l3 : list A) :
  sublist l1 l2 -> sublist l2 l3 -> sublist l1 l3.
Proof.
  intros H12 H23. revert l1 H12.
  induction H23 as [|x l2 l3 _ IH|x l2 l3 _ IH]; intros l1 H12.
  - exact H12.
  - constructor. apply IH, H12.
  - inversion H12; subst; constructor; apply IH; assumption.
Qed.

Lemma sublist_Forall (P : A -> Prop) (l l' : list A) :
  sublist l l' -> Forall P l' -> Forall P l.
Proof.
  induction 1 as [|x l l' _ IH|x l l' _ IH]; intros HF.
  - constructor.
  - inversion HF; subst. apply IH; assumption.
  - inversion HF; subst. constructor; [assumption | apply IH; assumption].
Qed.

Lemma sublist_sorted (R : A -> A -> Prop) (l l' : list A) :
  sublist l l' -> StronglySorted R l' -> StronglySorted R l.
Proof.
  induction 1 as [|x l l' Hs IH|x l l' Hs IH]; intros HS.
  - constructor.
  - inversion HS; subst. apply IH; assumption.
  - inversion HS; subst. constructor; [apply IH; assumption|].
    eapply sublist_Forall; eassumption.
Qed.
End Sublist.

Lemma filter_by_location_inv (needle : string) (leads : list person) :
  forall out,
    filter_by_location needle leads = Ret out ->
    sublist out leads
    /\ Forall location_is_text leads
    /\ Forall (fun p => exists loc,
                 location p = VStr loc /\ contains needle (lower loc) = true) out.
Proof.
  induction leads as [|lead rest IH]; intros out H.
  - injection H as <-. repeat split; constructor.
  - cbn [filter_by_location] in H. unfold lower_location in H.
    destruct (location lead) as [| | | |loc| |] eqn:Hloc; try discriminate H.
    destruct (filter_by_location needle rest) as [kept|e]; [|discriminate H].
    destruct (IH kept eq_refl) as (Hsub & Htext & Hall). injection H as <-.
    split; [|split].
    + destruct (contains needle (lower loc)); constructor; exact Hsub.
    + constructor; [exists loc; exact Hloc | exact Htext].
    + destruct (contains needle (lower loc)) eqn:Hc; [|exact Hall].
      constructor; [exists loc; split; assumption | exact Hall].
Qed.

Lemma filter_by_location_returns (needle : string) (leads : list person) :
  Forall location_is_text leads ->
  exists out, filter_by_location needle leads = Ret out.
Proof.
  induction 1 as [|lead rest [loc Hloc] _ [kept IH]]; [eexists; reflexivity|].
  cbn [filter_by_location]. unfold lower_location. rewrite Hloc, IH.
  eexists; reflexivity.
Qed.

(** X14. The filters only take leads away: what they return is a part
    of the ranked list in the same order, so still in descending order
    of the score; every lead kept has at least the minimum score, and,
    when the text filters are not empty, a location and a company that
    contain the filter text, letter case set aside. *)
Theorem filter_leads_keeps_order (min_score : Z) (location_filter company_filter : string)
  (leads out : list person) :
  filter_leads min_score location_filter company_filter leads = Ret out ->
  sublist out leads
  /\ (StronglySorted score_ge leads -> StronglySorted score_ge out)
  /\ Forall (fun p => (min_score <= score_key p)%Z) out
  /\ (location_filter <> EmptyString ->
      Forall (fun p => exists loc,
                location p = VStr loc
                /\ contains (lower location_filter) (lower loc) = true) out)
  /\ (company_filter <> EmptyString ->
      Forall (fun p => contains (lower company_filter) (lower (company p)) = true)
             out).
Proof.
  unfold filter_leads. cbv zeta. intros H.
  set (by_score := filter_min_score min_score leads) in *.
  assert (Hscore : sublist by_score leads
                   /\ Forall (fun p => (min_score <= score_key p)%Z) by_score).
  { split; [apply sublist_filter|]. apply Forall_forall. intros p Hp.
    apply filter_In in Hp. destruct Hp as [_ Hp]. apply Z.leb_le, Hp. }
  destruct Hscore as [Hsub1 Hmin].
  assert (Hloc : exists by_loc,
             (if String.eqb location_filter EmptyString then Ret by_score
              else filter_by_location (lower location_filter) by_score)
             = Ret by_loc
             /\ sublist by_loc by_score
             /\ (location_filter <> EmptyString ->
                 Forall (fun p => exists loc,
                           location p = VStr loc
                           /\ contains (lower location_filter) (lower loc) = true)
                        by_loc)).
  { destruct (String.eqb_spec location_filter EmptyString) as [He|Hne].
    - exists by_score. split; [reflexivity|].
      split; [apply sublist_refl | intros Hc; contradiction].
    - destruct (filter_by_location (lower location_filter) by_score)
        as [by_loc|e] eqn:Hf; [|discriminate H].
      destruct (filter_by_location_inv _ _ _ Hf) as (Hs & _ & Hall).
      exists by_loc. split; [reflexivity|]. split; [exact Hs | intros _; exact Hall]. }
  destruct Hloc as (by_loc & Heq & Hsub2 & Hlocs). rewrite Heq in H.
  injection H as <-.
  assert (Hsub3 : sublist (if String.eqb company_filter EmptyString then by_loc
                           else filter_by_company (lower company_filter) by_loc)
                          by_loc).
  { destruct (String.eqb company_filter EmptyString);
      [apply sublist_refl | apply sublist_filter]. }
  pose proof (sublist_trans _ _ _ Hsub3 Hsub2) as Hsub.
  split; [eapply sublist_trans; eassumption|].
  split; [intros HS; eapply sublist_sorted;
          [eapply sublist_trans; eassumption | exact HS]|].
  split; [eapply sublist_Forall; eassumption|].
  split.
  - intros Hne. eapply sublist_Forall; [exact Hsub3 | apply Hlocs, Hne].
  - intros Hne. destruct (String.eqb_spec company_filter EmptyString) as [He|_];
      [contradiction|].
    apply Forall_forall. intros p Hp. apply filter_In in Hp. apply Hp.
Qed.

Lemma filter_leads_keeps_order_witness :
  let ranked := [set_score 100 Demo.jane; set_score 35 Demo.speaker] in
  sublist [set_score 100 Demo.jane] ranked
  /\ Forall (fun p => contains (lower "ACME") (lower (company p)) = true)
            [set_score 100 Demo.jane].
Proof.
  intros ranked.
  destruct (filter_leads_keeps_order 50 "BOSTON" "ACME" ranked
              [set_score 100 Demo.jane] eq_refl) as (H1 & _ & _ & _ & H5).
  split; [exact H1 | apply H5; discriminate].
Defined.

(** The filters return when the location filter is empty or every
    location is a string. *)
Lemma filter_leads_returns (min_score : Z) (location_filter company_filter : string)
  (leads : list person) :
  location_filter = EmptyString \/ Forall location_is_text leads ->
  exists out,
    filter_leads min_score location_filter company_filter leads = Ret out.
Proof.
  unfold filter_leads. cbv zeta.
  intros [->|Htext]; [cbn; eexists; reflexivity|].
  destruct (String.eqb location_filter EmptyString); [eexists; reflexivity|].
  destruct (filter_by_location_returns (lower location_filter)
              (filter_min_score min_score leads)) as [kept ->];
    [|eexists; reflexivity].
  eapply sublist_Forall; [apply sublist_filter | exact Htext].
Qed.

Lemma ranking_locations (E : env) (l : list person) s ranked s' :
  ranking E l s = Ok ranked s' -> Forall location_is_text ranked.
Proof.
  intros H. apply ranking_inv in H. destruct H as (scored & HF & ->).
  apply sort_by_Forall. eapply Forall2_right; [|exact HF].
  intros a b (z & sa & sb & Hz & ->).
  destruct (calculate_score_returns _ _ _ _ _ Hz) as (loc & _ & Hloc & _).
  exists loc. exact Hloc.
Qed.

(** X15. On the output of the ranking stage the filters never raise,
    whatever the minimum score and the two filter texts are: a lead that
    was scored has a string for its location, the only thing the
    location filter needs. *)
Theorem filter_leads_returns_on_ranked (E : env) (l : list person) (s s' : state)
  (ranked : list person) (min_score : Z) (location_filter company_filter : string) :
  ranking E l s = Ok ranked s' ->
  exists out,
    filter_leads min_score location_filter company_filter ranked = Ret out
    /\ sublist out ranked.
Proof.
  intros H. apply ranking_locations in H.
  destruct (filter_leads_returns min_score location_filter company_filter ranked
              (or_intror H)) as [out Hout].
  exists out. split; [exact Hout|].
  unfold filter_leads in Hout. cbv zeta in Hout.
  assert (Hloc : forall kept,
             (if String.eqb location_filter EmptyString
              then Ret (filter_min_score min_score ranked)
              else filter_by_location (lower location_filter)
                     (filter_min_score min_score ranked)) = Ret kept ->
             sublist kept ranked).
  { intros kept Hk. destruct (String.eqb location_filter EmptyString).
    - injection Hk as <-. apply sublist_filter.
    - destruct (filter_by_location_inv _ _ _ Hk) as (Hs & _).
      eapply sublist_trans; [exact Hs | apply sublist_filter]. }
  destruct (if String.eqb location_filter EmptyString then _ else _) as [kept|e];
    [|discriminate Hout].
  injection Hout as <-. specialize (Hloc kept eq_refl).
  destruct (String.eqb company_filter EmptyString); [exact Hloc|].
  eapply sublist_trans; [apply sublist_filter | exact Hloc].
Qed.

Lemma filter_leads_returns_on_ranked_witness :
  exists out,
    filter_leads 50 "BOSTON" "acme" [set_score 100 Demo.jane; set_score 35 Demo.speaker]
    = Ret out
    /\ sublist out [set_score 100 Demo.jane; set_score 35 Demo.speaker].
Proof.
  exact (filter_leads_returns_on_ranked Demo.offline [Demo.speaker; Demo.jane]
           initial initial [set_score 100 Demo.jane; set_score 35 Demo.speaker]
           50 "BOSTON" "acme" eq_refl).
Defined.

Lemma lower_empty (s : string) : lower s = EmptyString <-> s = EmptyString.
Proof. destruct s; split; intros H; try reflexivity; discriminate H. Qed.

(** X16. The text filters do not look at the letter case of the filter
    text: two filter texts that differ in case only select the same
    leads. *)
Theorem filter_leads_ignores_case (min_score : Z)
  (location_filter location_filter' company_filter company_filter' : string)
  (leads : list person) :
  lower location_filter = lower location_filter' ->
  lower company_filter = lower company_filter' ->
  filter_leads min_score location_filter company_filter leads
  = filter_leads min_score location_filter' company_filter' leads.
Proof.
  intros Hl Hc. unfold filter_leads. cbv zeta. rewrite <- Hl, <- Hc.
  assert (He : forall a b, lower a = lower b ->
                           String.eqb a EmptyString = String.eqb b EmptyString).
  { intros a b H. destruct a, b; try reflexivity; discriminate H. }
  rewrite (He _ _ Hl), (He _ _ Hc). reflexivity.
Qed.

Lemma filter_leads_ignores_case_witness :
  filter_leads 0 "Boston" "ACME" [set_score 100 Demo.jane; set_score 35 Demo.speaker]
  = filter_leads 0 "BOSTON" "acme" [set_score 100 Demo.jane; set_score 35 Demo.speaker].
Proof.
  exact (filter_leads_ignores_case 0 "Boston" "BOSTON" "ACME" "acme"
           [set_score 100 Demo.jane; set_score 35 Demo.speaker] eq_refl eq_refl).
Defined.

(* ================================================================== *)
(** ** The body of the outreach link *)
(* ================================================================== *)

(** Replacing one character: what comes out is made of the replacement
    and of the other characters of the text. *)
Lemma replace_char_all (p : ascii -> bool) (c : ascii) (new : string) :
  all_chars p new = true ->
  forall fuel s,
    (String.length s <= fuel)%nat ->
    all_chars (fun x => Ascii.eqb c x || p x) s = true ->
    all_chars p (replace_fuel fuel (String c EmptyString) new s) = true.
Proof.
  intros Hnew. induction fuel as [|f IH]; intros s Hlen Hs.
  - destruct s; [reflexivity | cbn in Hlen; lia].
  - destruct s as [|x s']; [reflexivity|].
    cbn in Hlen. cbn in Hs. apply andb_prop in Hs. destruct Hs as [Hx Hs'].
    cbn [replace_fuel startswith String.length drop].
    destruct (Ascii.eqb c x) eqn:Hc; cbn [andb].
    + rewrite all_chars_app, Hnew. apply IH; [lia | exact Hs'].
    + cbn in Hx. cbn. rewrite Hx. apply IH; [lia | exact Hs'].
Qed.

(** X17. The body of the mail, as it is put into the link, holds no
    space and no line feed, whatever the text of the body is. *)
Theorem encode_body_clean (body : string) : no_space_nl (encode_body body) = true.
Proof.
  unfold no_space_nl, encode_body, replace.
  apply replace_char_all; [reflexivity | apply le_n|].
  eapply all_chars_impl;
    [|apply (replace_char_all
               (fun x => negb (Ascii.eqb x (ascii_of_nat 10)))
               (ascii_of_nat 10) "%0A" eq_refl (String.length body) body (le_n _))].
  - intros x Hx. cbn beta in *. rewrite Hx, andb_true_r.
    rewrite (Ascii.eqb_sym " " x). destruct (Ascii.eqb x " "); reflexivity.
  - apply (all_chars_impl (fun _ => true)); [|clear; induction body; auto].
    intros x _. rewrite (Ascii.eqb_sym _ x).
    destruct (Ascii.eqb x (ascii_of_nat 10)); reflexivity.
Qed.

(* ================================================================== *)
(** ** The pipeline as a whole *)
(* ================================================================== *)

(** The three stages behind the test of the settings. *)
Lemma run_stages (E : env) (s : state) ranked s' :
  run_biotech_pipeline E s = Ok (Some ranked) s' ->
  exists leads s1 enriched s2,
    identification E s = Ok leads s1
    /\ enrichment E leads s1 = Ok enriched s2
    /\ ranking E enriched s2 = Ok ranked s'.
Proof.
  unfold run_biotech_pipeline.
  destruct (GEMINI_API_KEY E); cbn [negb]; [|discriminate].
  destruct (EMAIL E); cbn [negb]; [|discriminate].
  unfold bind. intros H.
  destruct (identification E s) as [leads s1|e s1] eqn:H1; [|discriminate].
  destruct (enrichment E leads s1) as [enriched s2|e s2] eqn:H2; [|discriminate].
  destruct (ranking E enriched s2) as [ranked' s3|e s3] eqn:H3; [|discriminate].
  injection H as <- <-. exists leads, s1, enriched, s2.
  split; [reflexivity|]. split; [exact H2 | exact H3].
Qed.

Lemma py_or_truthy (v r : pyval) (fallback : result pyval) :
  (forall x, fallback = Ret x -> truthy x = true) ->
  py_or v fallback = Ret r -> truthy r = true.
Proof.
  unfold py_or. intros Hf. destruct (truthy v) eqn:Hv.
  - intros H. injection H as <-. exact Hv.
  - apply Hf.
Qed.

Lemma truthy_nonempty (x : string) : x <> EmptyString -> truthy (VStr x) = true.
Proof. intros H. cbn. destruct x; [contradiction | reflexivity]. Qed.

Lemma synth_linkedin_truthy (nm x : pyval) :
  synth_linkedin nm = Ret x -> truthy x = true.
Proof.
  unfold synth_linkedin. destruct nm; try discriminate.
  intros H. injection H as <-. reflexivity.
Qed.

Lemma synth_email_truthy (nm x : pyval) (co : string) :
  synth_email nm co = Ret x -> truthy x = true.
Proof.
  unfold synth_email. destruct nm as [| | | |nm| |]; try discriminate.
  destruct (split_ws nm) as [|first rest]; [discriminate|].
  intros H. injection H as <-. apply truthy_nonempty.
  repeat apply append_nonempty. discriminate.
Qed.

(** What [enrich_person] stores as profile and as email is truthy: an
    extracted value that is, or else the synthesized string. *)
Lemma enrich_person_truthy (E : env) (p e : person) s s' :
  enrich_person E p s = Ok e s' ->
  (exists li, linkedin e = Some li /\ truthy li = true)
  /\ (exists em, email e = Some em /\ truthy em = true).
Proof.
  intros H. unfold enrich_person, bind in H.
  repeat match type of H with
         | match search_snippets ?E ?q ?n ?s with Ok _ _ => _ | Exn _ _ => _ end = _ =>
             destruct (search_snippets E q n s) as [? ?|? ?]; [|discriminate]
         | match llm_contact ?E ?q ?s with Ok _ _ => _ | Exn _ _ => _ end = _ =>
             destruct (llm_contact E q s) as [[[li em] loc] ?|? ?]; [|discriminate]
         end.
  destruct (py_or li (synth_linkedin (name p))) as [li'|x] eqn:Hl;
    [|discriminate H].
  cbn [lift] in H. unfold ret at 1 in H. cbn beta iota in H.
  destruct (py_or em (synth_email (name p) (company p))) as [em'|x] eqn:He;
    [|discriminate H].
  cbn [lift] in H. unfold ret in H. injection H as <- _. cbn. split.
  - exists li'. split; [reflexivity|].
    eapply py_or_truthy; [|exact Hl]. apply synth_linkedin_truthy.
  - exists em'. split; [reflexivity|].
    eapply py_or_truthy; [|exact He]. intros x. apply synth_email_truthy.
Qed.

(** X18. Without one of the two settings the pipeline returns at once,
    with no lead and no call. A run that comes to its end yields at most
    30 leads, in descending order of the score; each has a score between
    15 and 100, a location that is a string, and under [linkedin] and
    [email] a value that is truthy: the value the model returned, kept
    as it is whatever its type, or else the synthesized string. *)
Theorem pipeline_output (E : env) (s : state) :
  (GEMINI_API_KEY E = false \/ EMAIL E = false ->
   run_biotech_pipeline E s = Ok None s)
  /\ forall ranked s',
       run_biotech_pipeline E s = Ok (Some ranked) s' ->
       (List.length ranked <= 30)%nat
       /\ StronglySorted score_ge ranked
       /\ Forall (fun p =>
                    (exists z, score p = Some z /\ (15 <= z <= 100)%Z)
                    /\ (exists li, linkedin p = Some li /\ truthy li = true)
                    /\ (exists em, email p = Some em /\ truthy em = true)
                    /\ linkedin p <> None /\ email p <> None
                    /\ location_is_text p)
                 ranked.
Proof.
  split.
  - unfold run_biotech_pipeline.
    intros [H|H]; rewrite H; [reflexivity|].
    destruct (GEMINI_API_KEY E); reflexivity.
  - intros ranked s' H.
    destruct (run_stages _ _ _ _ H) as (leads & s1 & enriched & s2 & _ & Hen & Hrk).
    pose proof (enrichment_length _ _ _ _ _ Hen) as Hlen.
    unfold enrichment in Hen. apply enrich_loop_inv in Hen.
    destruct Hen as (done & -> & Hdone). cbn [app] in *.
    apply ranking_inv in Hrk. destruct Hrk as (scored & Hsc & ->).
    split; [|split].
    + rewrite (Permutation_length (sort_leads_perm scored)).
      rewrite <- (Forall2_length Hsc). exact Hlen.
    + apply sort_leads_sorted.
    + apply sort_by_Forall.
      assert (Hcontact :
                Forall (fun p => (exists li, linkedin p = Some li /\ truthy li = true)
                                 /\ (exists em, email p = Some em /\ truthy em = true))
                       done).
      { eapply Forall2_right; [|exact Hdone].
        intros a b (sa & sb & Hb & _). eapply enrich_person_truthy, Hb. }
      eapply Forall2_Forall; [|exact Hsc | exact Hcontact].
      intros a b (z & sa & sb & Hz & ->) [Hli Hem]. cbn.
      split; [exists z; split; [reflexivity | eapply calculate_score_bounds, Hz]|].
      split; [exact Hli|]. split; [exact Hem|].
      split; [destruct Hli as (li & -> & _); discriminate|].
      split; [destruct Hem as (em & -> & _); discriminate|].
      destruct (calculate_score_returns _ _ _ _ _ Hz) as (loc & _ & Hloc & _).
      exists loc. exact Hloc.
Qed.

Lemma pipeline_output_witness :
  let jane := citation_lead {| au_name := "Jane Doe";
                               affiliation := "Acme Inc, Boston, MA";
                               au_location := "Boston, MA" |} in
  let acme := set_has_recent_paper false (attendee (VStr "Acme Bio")) in
  let mary := set_has_recent_paper false (attendee (VStr "Mary Major")) in
  let ranked :=
    [ set_score 85 (set_contact (VStr "https://linkedin.com/in/janedoe")
                      (VStr "jane.doe@acmeinc.com") (VStr "Boston, MA") jane);
      set_score 35 (set_contact (VStr "https://linkedin.com/in/acmebio")
                      (VStr "acme.bio@unknown.com") (VStr "Unknown") acme);
      set_score 35 (set_contact (VStr "https://linkedin.com/in/marymajor")
                      (VStr "mary.major@unknown.com") (VStr "Unknown") mary) ] in
  run_biotech_pipeline Demo.unconfigured initial = Ok None initial
  /\ (List.length ranked <= 30)%nat
  /\ StronglySorted score_ge ranked.
Proof.
  intros jane acme mary ranked. split.
  - apply pipeline_output. left. reflexivity.
  - destruct (proj2 (pipeline_output Demo.offline initial) ranked initial)
      as (Hlen & Hsorted & _).
    + vm_compute. reflexivity.
    + split; [exact Hlen | exact Hsorted].
Defined.

Lemma filter_all {A} (f : A -> bool) (l : list A) :
  Forall (fun x => f x = true) l -> filter f l = l.
Proof.
  induction 1 as [|x l Hx _ IH]; [reflexivity|]. cbn. rewrite Hx, IH. reflexivity.
Qed.

Lemma filter_none {A} (f : A -> bool) (l : list A) :
  Forall (fun x => f x = false) l -> filter f l = [].
Proof.
  induction 1 as [|x l Hx _ IH]; [reflexivity|]. cbn. rewrite Hx, IH. reflexivity.
Qed.

(** X19. The enrichment takes the first 30 leads and the leads of the
    papers come first: when the papers give 30 leads or more, no lead of
    the conference reaches the output, which then holds exactly 30 leads,
    all from papers. *)
Theorem conference_leads_crowded_out (E : env) (s s1 s' : state)
  (leads ranked : list person) :
  identification E s = Ok leads s1 ->
  (30 <= List.length (filter from_paper leads))%nat ->
  run_biotech_pipeline E s = Ok (Some ranked) s' ->
  Forall (fun p => source p = PubMed) ranked /\ List.length ranked = 30%nat.
Proof.
  intros Hid Hmany Hrun.
  destruct (run_stages _ _ _ _ Hrun) as (leads' & s1' & enriched & s2 & Hid' & Hen & Hrk).
  rewrite Hid in Hid'. injection Hid' as <- <-.
  destruct (identification_inv _ _ _ _ Hid) as (cites & conf & -> & Hcites & Hconf).
  destruct (scrape_attendees _ _ _ _ Hconf) as (items & ->).
  assert (Hpub : Forall (fun p => source p = PubMed) cites).
  { eapply Forall_impl; [|exact Hcites]. intros p (H & _). exact H. }
  rewrite filter_app, (filter_all from_paper cites), filter_none, app_nil_r in Hmany.
  2: { rewrite map_map. apply Forall_map, Forall_forall. intros nm _. reflexivity. }
  2: { eapply Forall_impl; [|exact Hpub]. intros p H. unfold from_paper.
       rewrite H. reflexivity. }
  unfold enrichment in Hen. rewrite firstn_app in Hen.
  replace (30 - List.length cites)%nat with 0%nat in Hen by lia.
  rewrite firstn_0, app_nil_r in Hen.
  apply enrich_loop_inv in Hen. destruct Hen as (done & -> & Hdone). cbn [app] in *.
  apply ranking_inv in Hrk. destruct Hrk as (scored & Hsc & ->).
  split.
  - apply sort_by_Forall.
    apply (Forall2_Forall (scored_from E) (fun p => source p = PubMed)
             (fun p => source p = PubMed) done scored); [|exact Hsc|].
    + intros a b (z & sa & sb & _ & ->) Ha. exact Ha.
    + apply (Forall2_Forall (enriched_from E) (fun p => source p = PubMed)
               (fun p => source p = PubMed) (firstn 30 cites) done);
        [|exact Hdone | apply Forall_firstn, Hpub].
      intros a b (sa & sb & _ & _ & _ & _ & Hsrc & _) Ha. rewrite Hsrc. exact Ha.
  - rewrite (Permutation_length (sort_leads_perm scored)).
    rewrite <- (Forall2_length Hsc), <- (Forall2_length Hdone), length_firstn. lia.
Qed.

Lemma conference_leads_crowded_out_witness :
  Forall (fun p => source p = PubMed)
    (repeat (set_score 85
               (set_contact (VStr "https://linkedin.com/in/janedoe")
                  (VStr "jane.doe@acmeinc.com") (VStr "Boston, MA")
                  (citation_lead {| au_name := "Jane Doe";
                                    affiliation := "Acme Inc, Boston, MA";
                                    au_location := "Boston, MA" |}))) 30).
Proof.
  refine (proj1 (conference_leads_crowded_out Demo.crowded initial initial initial
                   (repeat (citation_lead {| au_name := "Jane Doe";
                                             affiliation := "Acme Inc, Boston, MA";
                                             au_location := "Boston, MA" |}) 30
                    ++ [ set_has_recent_paper false (attendee (VStr "Acme Bio"));
                         set_has_recent_paper false (attendee (VStr "Mary Major")) ])
                   _ _ _ _)).
  - vm_compute. reflexivity.
  - vm_compute. apply le_n.
  - vm_compute. reflexivity.
Defined.

(* ================================================================== *)
(** ** The shape of the synthesized contact *)
(* ================================================================== *)

Lemma lower_char_space (c : ascii) :
  Ascii.eqb (lower_char c) " " = Ascii.eqb c " ".
Proof. destruct c as [[] [] [] [] [] [] [] []]; reflexivity. Qed.

Lemma no_space_lower (s : string) : no_space (lower s) = no_space s.
Proof.
  unfold no_space. induction s as [|c s IH]; [reflexivity|].
  cbn. rewrite lower_char_space, IH. reflexivity.
Qed.

Lemma no_space_remove (s : string) : no_space (remove_spaces s) = true.
Proof.
  unfold no_space. induction s as [|c s IH]; [reflexivity|].
  cbn. destruct (Ascii.eqb c " ") eqn:Hc; [exact IH|].
  cbn. rewrite Hc, IH. reflexivity.
Qed.

(** The tokens of [split()] hold no whitespace. *)
Lemma split_ws_tokens (s : string) :
  Forall (fun t => all_chars (fun c => negb (is_space c)) t = true) (split_ws s).
Proof.
  induction s as [|c s IH]; [constructor|].
  cbn [split_ws]. destruct (is_space c) eqn:Hc; [exact IH|].
  destruct s as [|c' s'].
  - constructor; [cbn; rewrite Hc; reflexivity | constructor].
  - destruct (is_space c') eqn:Hc'.
    + constructor; [cbn; rewrite Hc; reflexivity | exact IH].
    + destruct (split_ws (String c' s')) as [|h t].
      * constructor; [cbn; rewrite Hc; reflexivity | constructor].
      * inversion IH; subst. constructor; [|assumption].
        cbn. rewrite Hc. cbn. assumption.
Qed.

Lemma token_no_space (t : string) :
  all_chars (fun c => negb (is_space c)) t = true -> no_space t = true.
Proof.
  apply all_chars_impl. intros c Hc.
  destruct (Ascii.eqb_spec c " ") as [->|]; [discriminate Hc | reflexivity].
Qed.

Lemma last_in {A} (l : list A) (d : A) : In (last l d) (d :: l).
Proof.
  induction l as [|x l IH]; [left; reflexivity|].
  cbn [last]. destruct l as [|y l'].
  - right. left. reflexivity.
  - destruct IH as [H|H]; [left; exact H | right; right; exact H].
Qed.

(** X20. A synthesized email contains [@], ends with [.com] and holds
    no space; a synthesized profile begins with the address of the
    profile host and holds no space. *)
Theorem synthesized_contact_shape (nm co : string) :
  (forall address,
     synth_email (VStr nm) co = Ret (VStr address) ->
     contains "@" address = true
     /\ no_space address = true
     /\ exists front, address = front +++ ".com")
  /\ exists url,
       synth_linkedin (VStr nm) = Ret (VStr url)
       /\ startswith "https://linkedin.com/in/" url = true
       /\ no_space url = true.
Proof.
  split.
  - intros address H. unfold synth_email in H.
    pose proof (split_ws_tokens nm) as Htok.
    destruct (split_ws nm) as [|first rest]; [discriminate H|].
    injection H as <-.
    assert (Hfirst : no_space first = true).
    { inversion Htok; subst. apply token_no_space. assumption. }
    assert (Hlast : no_space (last rest first) = true).
    { rewrite Forall_forall in Htok. apply token_no_space, Htok, last_in. }
    split; [|split].
    + match goal with |- contains _ ?e = true =>
        replace e with ((lower first +++ "." +++ lower (last rest first))
                        +++ "@" +++ lower (remove_spaces co) +++ ".com")
          by (rewrite !append_assoc; reflexivity)
      end.
      apply contains_app.
    + pose proof (no_space_lower first) as H1.
      pose proof (no_space_lower (last rest first)) as H2.
      pose proof (no_space_lower (remove_spaces co)) as H3.
      rewrite Hfirst in H1. rewrite Hlast in H2. rewrite no_space_remove in H3.
      unfold no_space in *.
      repeat first [rewrite all_chars_app | progress cbn [all_chars String.append]].
      rewrite H1, H2, H3. reflexivity.
    + exists (lower first +++ "." +++ lower (last rest first) +++ "@"
              +++ lower (remove_spaces co)).
      rewrite !append_assoc. reflexivity.
  - eexists. split; [reflexivity|]. split; [reflexivity|].
    pose proof (no_space_lower (remove_spaces nm)) as H.
    rewrite no_space_remove in H.
    unfold no_space in *.
    repeat first [rewrite all_chars_app | progress cbn [all_chars String.append]].
    rewrite H. reflexivity.
Qed.

Lemma synthesized_contact_shape_witness :
  contains "@" "mary.major@acmebio.com" = true
  /\ no_space "mary.major@acmebio.com" = true
  /\ exists front, "mary.major@acmebio.com" = front +++ ".com".
Proof.
  exact (proj1 (synthesized_contact_shape "Mary van Major" "Acme Bio")
           "mary.major@acmebio.com" eq_refl).
Defined.
